(** * ZK-GovProof: constraint circuits, proof lifecycle and composite bundling

    A shallow embedding of the three circom circuits
    ([compute_threshold], [evaluation_attestation], [policy_compliance]) with
    their helper templates ([Num2Bits], [LessThan], [GreaterEqThan]), of the
    proof lifecycle scripts ([generate-proof.js], [demo.js]) and of the
    composite bundler ([composite-proof.js]).

    Signals are elements of the scalar field of BN128, the curve the setup
    script selects ([snarkjs powersoftau new bn128]) and circom's default
    prime.  The field is [Zmod p] of the Standard Library; that [p] is prime
    is proved below from a Pocklington certificate. *)

From Stdlib Require Import ZArith Znumtheory Zpow_facts Lia List Bool String Ascii.
From Stdlib Require Import Zmod.ZmodDef Zmod.ZmodBase Zmod.ZmodInv.
From stdpp Require Import base gmap strings pretty.
Import ListNotations.
Open Scope Z_scope.

(* ================================================================= *)
(** ** Primality certificates (checked by computation) *)

(** Trial division from [d] upwards, stopping once [d * d > n]. *)
Fixpoint trial (fuel : nat) (d n : Z) : bool :=
  if n <? d * d then true
  else match fuel with
       | O => false
       | S f => negb (n mod d =? 0) && trial f (d + 1) n
       end.

Definition prime_trial (n : Z) : bool :=
  (1 <? n) && trial (Z.to_nat (Z.sqrt n)) 2 n.

(** Least common multiple of the prime powers [q ^ e] of a certificate. *)
Definition lcm_pp (qs : list (Z * Z)) : Z :=
  fold_right (fun qe acc => Z.lcm (fst qe ^ snd qe) acc) 1 qs.

(** Pocklington's test for [N] with base [a], where [N - 1 = m * K], every
    listed prime [q] divides [K], and [q ^ e] divides [N - 1].  The power
    [c = a ^ m] is shared by all the modular exponentiations. *)
Definition pock_check (N a m K : Z) (qs : list (Z * Z)) : bool :=
  let c := Zpow_mod a m N in
  (1 <? N) && (0 <=? m) && (0 <? K) && (N - 1 =? m * K)
  && (Zpow_mod c K N =? 1)
  && forallb (fun qe =>
                (0 <=? snd qe)
                && ((N - 1) mod (fst qe ^ snd qe) =? 0)
                && (K mod fst qe =? 0)
                && (Z.gcd (Zpow_mod c (K / fst qe) N - 1) N =? 1)) qs
  && (N <? (lcm_pp qs + 1) * (lcm_pp qs + 1)).

(* ================================================================= *)
(** ** The field of signals *)

(** Order of the scalar field of BN128 (254 bits). *)
Definition p : Z :=
  21888242871839275222246405745257275088548364400416034343698204186575808495617.

Abbreviation Fp := (Zmod p).

Declare Scope Fp_scope.
Delimit Scope Fp_scope with Fp.
Bind Scope Fp_scope with Zmod.
Infix "+" := Zmod.add : Fp_scope.
Infix "-" := Zmod.sub : Fp_scope.
Infix "*" := Zmod.mul : Fp_scope.
Infix "=?" := Zmod.eqb : Fp_scope.
Notation "0" := (@Zmod.zero p) : Fp_scope.
Notation "1" := (@Zmod.one p) : Fp_scope.

(** How the witness calculator reads an input number: reduced modulo [p]. *)
Definition normalize (n : Z) : Fp := Zmod.of_Z p n.

(** circom's bit operators act on the canonical representative; a left shift
    is masked to the 254 bits of [p] and reduced. *)
Definition mask : Z := 2 ^ 254 - 1.

Definition shl (x : Fp) (k : Z) : Fp :=
  Zmod.of_Z p (Z.land (Z.shiftl (Zmod.to_Z x) k) mask).

Definition shr (x : Fp) (k : Z) : Fp :=
  Zmod.of_Z p (Z.shiftr (Zmod.to_Z x) k).

Definition band (x y : Fp) : Fp :=
  Zmod.of_Z p (Z.land (Zmod.to_Z x) (Zmod.to_Z y)).

(* ================================================================= *)
(** ** Failures and the generation monad *)

Inductive error : Type :=
| ConstraintUnsatisfiable   (* a [===] / [<==] check failed while computing the witness *)
| TemplateAssert            (* a template's [assert] failed *)
| InputShape                (* the input record does not fit the circuit's signals *)
| MalformedArtifact.        (* a stored value is not what is read from it *)

Inductive result (A : Type) : Type :=
| Ok (a : A)
| Err (e : error).
Arguments Ok {A} a.
Arguments Err {A} e.

#[global] Instance result_bind : MBind result := fun A B k r =>
  match r with
  | Ok a => k a
  | Err e => Err e
  end.

Definition is_ok {A} (r : result A) : bool :=
  match r with Ok _ => true | Err _ => false end.

(** [a === b] during witness computation. *)
Definition constrain (a b : Fp) : result unit :=
  if (a =? b)%Fp then Ok tt else Err ConstraintUnsatisfiable.

(* ================================================================= *)
(** ** Template [Num2Bits(n)] *)

(** The constraint system: every [out[i]] is boolean and the linear
    combination [lc1] of the bits with weights [e2 = 1, 2, 4, ...] equals
    [in].  [Num2Bits_lc] is the loop's accumulation of [lc1] and [e2]. *)
Fixpoint Num2Bits_lc (out : list Fp) (lc1 e2 : Fp) : Fp :=
  match out with
  | [] => lc1
  | b :: bs => Num2Bits_lc bs (lc1 + b * e2)%Fp (e2 + e2)%Fp
  end.

Definition boolean_constraint (b : Fp) : bool := (b * (b - 1) =? 0)%Fp.

Definition Num2Bits_constraints (n : nat) (inp : Fp) (out : list Fp) : bool :=
  Nat.eqb (length out) n
  && forallb boolean_constraint out
  && (Num2Bits_lc out 0 1 =? inp)%Fp.

(** Witness computation: [out[i] <-- (in >> i) & 1], each constraint checked
    as it is met. *)
Fixpoint Num2Bits_loop (k : nat) (i : Z) (inp lc1 e2 : Fp)
  : result (list Fp * Fp) :=
  match k with
  | O => Ok ([], lc1)
  | S k' =>
      let out_i := band (shr inp i) 1%Fp in
      _ ← constrain (out_i * (out_i - 1))%Fp 0%Fp;
      '(outs, lc) ← Num2Bits_loop k' (i + 1) inp (lc1 + out_i * e2)%Fp (e2 + e2)%Fp;
      Ok (out_i :: outs, lc)
  end.

Definition Num2Bits (n : nat) (inp : Fp) : result (list Fp) :=
  '(out, lc1) ← Num2Bits_loop n 0 inp 0%Fp 1%Fp;
  _ ← constrain lc1 inp;
  Ok out.

(* ================================================================= *)
(** ** Template [LessThan(n)] *)

Record LessThan_signals : Type := {
  lt_in0 : Fp;
  lt_in1 : Fp;
  lt_out : Fp;
  n2b_in : Fp;
  n2b_out : list Fp
}.

Definition LessThan_constraints (n : nat) (s : LessThan_signals) : bool :=
  (n <=? 252)%nat
  && (n2b_in s =? lt_in0 s + shl 1%Fp (Z.of_nat n) - lt_in1 s)%Fp
  && Num2Bits_constraints (n + 1) (n2b_in s) (n2b_out s)
  && (lt_out s =? 1 - nth n (n2b_out s) 0)%Fp.

Definition LessThan (n : nat) (in0 in1 : Fp) : result LessThan_signals :=
  if (n <=? 252)%nat then
    let s := (in0 + shl 1%Fp (Z.of_nat n) - in1)%Fp in
    bits ← Num2Bits (n + 1) s;
    Ok {| lt_in0 := in0; lt_in1 := in1;
          lt_out := (1 - nth n bits 0)%Fp;
          n2b_in := s; n2b_out := bits |}
  else Err TemplateAssert.

(* ================================================================= *)
(** ** Template [GreaterEqThan(n)] *)

Record GreaterEqThan_signals : Type := {
  ge_in0 : Fp;
  ge_in1 : Fp;
  ge_out : Fp;
  ge_lt : LessThan_signals
}.

Definition GreaterEqThan_constraints (n : nat) (s : GreaterEqThan_signals) : bool :=
  (lt_in0 (ge_lt s) =? ge_in0 s)%Fp
  && (lt_in1 (ge_lt s) =? ge_in1 s)%Fp
  && LessThan_constraints n (ge_lt s)
  && (ge_out s =? 1 - lt_out (ge_lt s))%Fp.

Definition GreaterEqThan (n : nat) (in0 in1 : Fp) : result GreaterEqThan_signals :=
  lt ← LessThan n in0 in1;
  Ok {| ge_in0 := in0; ge_in1 := in1;
        ge_out := (1 - lt_out lt)%Fp; ge_lt := lt |}.

(* ================================================================= *)
(** ** Circuit [compute_threshold.circom]: template [ComputeThreshold()] *)

Record ComputeThreshold_signals : Type := {
  privateCompute : Fp;            (* private input *)
  threshold : Fp;                 (* public input *)
  ct_valid : Fp;                  (* output [valid] *)
  difference : Fp;
  rangeCheck : LessThan_signals   (* component [LessThan(252)] *)
}.

Definition ComputeThreshold_constraints (s : ComputeThreshold_signals) : bool :=
  (difference s =? threshold s - privateCompute s)%Fp
  && (lt_in0 (rangeCheck s) =? privateCompute s)%Fp
  && (lt_in1 (rangeCheck s) =? threshold s)%Fp
  && LessThan_constraints 252 (rangeCheck s)
  && (ct_valid s =? lt_out (rangeCheck s))%Fp
  && (ct_valid s =? 1)%Fp.

Definition ComputeThreshold (privateCompute threshold : Fp)
  : result ComputeThreshold_signals :=
  let difference := (threshold - privateCompute)%Fp in
  rangeCheck ← LessThan 252 privateCompute threshold;
  let valid := lt_out rangeCheck in
  _ ← constrain valid 1%Fp;
  Ok {| privateCompute := privateCompute; threshold := threshold;
        ct_valid := valid; difference := difference;
        rangeCheck := rangeCheck |}.

(* ================================================================= *)
(** ** Circuits [evaluation_attestation.circom] and [policy_compliance.circom]

    The templates [EvaluationAttestation(N)] and [PolicyCompliance(N)] are the
    same text up to the names of their signals, so one definition embeds
    both:
    - [flags]   is [evaluationFlags[N]] / [policyItems[N]] (private),
    - [minimum] is [requiredCount] / [minRequired] (public),
    - [sums]    is [completedSum[N]] / [itemSum[N]],
    - [check]   is [checkComplete] / [checkCompliance], a [GreaterEqThan(8)]. *)

Record FlagAggregation_signals : Type := {
  flags : list Fp;
  minimum : Fp;
  fa_valid : Fp;                  (* output [valid] *)
  sums : list Fp;
  check : GreaterEqThan_signals
}.

(** [sum[i] <== sum[i-1] + flag[i]] for the flags after the first. *)
Fixpoint running_sums (prev : Fp) (rest : list Fp) : list Fp :=
  match rest with
  | [] => []
  | f :: rest' => let s := (prev + f)%Fp in s :: running_sums s rest'
  end.

Fixpoint sums_constraints (prev : Fp) (rest sums : list Fp) : bool :=
  match rest, sums with
  | [], [] => true
  | f :: rest', s :: sums' => (s =? prev + f)%Fp && sums_constraints s rest' sums'
  | _, _ => false
  end.

Definition FlagAggregation_constraints (N : nat) (s : FlagAggregation_signals) : bool :=
  Nat.eqb (length (flags s)) N
  && forallb boolean_constraint (flags s)
  && match flags s, sums s with
     | f0 :: rest, s0 :: sums' => (s0 =? f0)%Fp && sums_constraints s0 rest sums'
     | _, _ => false
     end
  && (ge_in0 (check s) =? nth (N - 1) (sums s) 0)%Fp
  && (ge_in1 (check s) =? minimum s)%Fp
  && GreaterEqThan_constraints 8 (check s)
  && (fa_valid s =? ge_out (check s))%Fp
  && (fa_valid s =? 1)%Fp.

Fixpoint constrain_boolean (fs : list Fp) : result unit :=
  match fs with
  | [] => Ok tt
  | f :: fs' => _ ← constrain (f * (f - 1))%Fp 0%Fp; constrain_boolean fs'
  end.

Definition FlagAggregation (N : nat) (flags : list Fp) (minimum : Fp)
  : result FlagAggregation_signals :=
  if Nat.eqb (length flags) N then
    _ ← constrain_boolean flags;
    match flags with
    | [] => Err TemplateAssert      (* N = 0: there is no [sum[0]] *)
    | f0 :: rest =>
        let sums := f0 :: running_sums f0 rest in
        check ← GreaterEqThan 8 (nth (N - 1) sums 0%Fp) minimum;
        let valid := ge_out check in
        _ ← constrain valid 1%Fp;
        Ok {| flags := flags; minimum := minimum; fa_valid := valid;
              sums := sums; check := check |}
    end
  else Err InputShape.

Definition EvaluationAttestation := FlagAggregation.
Definition EvaluationAttestation_constraints := FlagAggregation_constraints.
Definition PolicyCompliance := FlagAggregation.
Definition PolicyCompliance_constraints := FlagAggregation_constraints.

(** A constraint system is satisfiable for given inputs when some assignment
    of all its signals extends them and passes every constraint. *)
Definition Num2Bits_satisfiable (n : nat) (x : Fp) : Prop :=
  exists out, Num2Bits_constraints n x out = true.

Definition LessThan_satisfiable (n : nat) (a b out : Fp) : Prop :=
  exists s, lt_in0 s = a /\ lt_in1 s = b /\ lt_out s = out
            /\ LessThan_constraints n s = true.

Definition GreaterEqThan_satisfiable (n : nat) (a b out : Fp) : Prop :=
  exists s, ge_in0 s = a /\ ge_in1 s = b /\ ge_out s = out
            /\ GreaterEqThan_constraints n s = true.

Definition ComputeThreshold_satisfiable (v T : Fp) : Prop :=
  exists s, privateCompute s = v /\ threshold s = T
            /\ ComputeThreshold_constraints s = true.

Definition FlagAggregation_satisfiable (N : nat) (fl : list Fp) (k : Fp) : Prop :=
  exists s, flags s = fl /\ minimum s = k
            /\ FlagAggregation_constraints N s = true.

(** The three main components. *)
Inductive circuit : Type :=
| compute_threshold         (* [ComputeThreshold()], public [threshold] *)
| evaluation_attestation    (* [EvaluationAttestation(5)], public [requiredCount] *)
| policy_compliance.        (* [PolicyCompliance(8)], public [minRequired] *)

Definition circuitName (c : circuit) : string :=
  match c with
  | compute_threshold => "compute_threshold"
  | evaluation_attestation => "evaluation_attestation"
  | policy_compliance => "policy_compliance"
  end.

(** The input record handed to the prover; numbers are what the decimal
    strings of the scripts denote. *)
Inductive input : Type :=
| ComputeInput (privateCompute threshold : Z)
| EvaluationInput (evaluationFlags : list Z) (requiredCount : Z)
| PolicyInput (policyItems : list Z) (minRequired : Z).

Inductive witness : Type :=
| ComputeWitness (s : ComputeThreshold_signals)
| EvaluationWitness (s : FlagAggregation_signals)
| PolicyWitness (s : FlagAggregation_signals).

Definition witness_circuit (w : witness) : circuit :=
  match w with
  | ComputeWitness _ => compute_threshold
  | EvaluationWitness _ => evaluation_attestation
  | PolicyWitness _ => policy_compliance
  end.

Definition constraints_hold (w : witness) : bool :=
  match w with
  | ComputeWitness s => ComputeThreshold_constraints s
  | EvaluationWitness s => EvaluationAttestation_constraints 5 s
  | PolicyWitness s => PolicyCompliance_constraints 8 s
  end.

(** Witness calculation for [component main] of each circuit file. *)
Definition calculate_witness (c : circuit) (i : input) : result witness :=
  match c, i with
  | compute_threshold, ComputeInput v T =>
      s ← ComputeThreshold (normalize v) (normalize T); Ok (ComputeWitness s)
  | evaluation_attestation, EvaluationInput fl k =>
      s ← EvaluationAttestation 5 (map normalize fl) (normalize k);
      Ok (EvaluationWitness s)
  | policy_compliance, PolicyInput fl k =>
      s ← PolicyCompliance 8 (map normalize fl) (normalize k);
      Ok (PolicyWitness s)
  | _, _ => Err InputShape
  end.

(** Public signals: the output [valid], then the declared public input, as
    decimal strings. *)
Definition signal_string (x : Fp) : string := pretty (Zmod.to_Z x).

Definition publicSignals (w : witness) : list string :=
  match w with
  | ComputeWitness s => map signal_string [ct_valid s; threshold s]
  | EvaluationWitness s => map signal_string [fa_valid s; minimum s]
  | PolicyWitness s => map signal_string [fa_valid s; minimum s]
  end.

(* ================================================================= *)
(** ** The external proving engine and the host *)

(** [snarkjs]' Groth16 prover and verifier with the keys of the trusted
    setup.  They are outside this repository: the scripts only call them. *)
Class Groth16 : Type := {
  proof : Type;
  vkey : Type;
  (** [build/<circuit>/verification_key.json] *)
  verification_key : circuit -> vkey;
  (** proof computation from a witness, under the circuit's proving key *)
  groth16_prove : witness -> proof;
  (** [groth16.verify(vKey, publicSignals, proof)] *)
  groth16_verify : vkey -> list string -> proof -> bool
}.

(** Completeness of the engine: a proof computed from an assignment that
    satisfies the circuit verifies under that circuit's key. *)
Class Groth16Complete (G : Groth16) : Prop :=
  groth16_complete : forall w : witness,
    constraints_hold w = true ->
    groth16_verify (verification_key (witness_circuit w))
                   (publicSignals w) (groth16_prove w) = true.

(** [groth16.fullProve(input, wasm, zkey)]: witness calculation, then proof
    computation; it throws when the witness calculation does. *)
Definition fullProve `{Groth16} (c : circuit) (i : input)
  : result (proof * list string) :=
  w ← calculate_witness c i;
  Ok (groth16_prove w, publicSignals w).

(** JavaScript values the scripts build and store, with the engine's proof
    objects as leaves. *)
#[local] Unset Elimination Schemes.
Inductive json (P : Type) : Type :=
| JString (s : string)
| JArray (l : list (json P))
| JObject (fields : list (string * json P))
| JProof (π : P).
#[local] Set Elimination Schemes.
Arguments JString {P} s.
Arguments JArray {P} l.
Arguments JObject {P} fields.
Arguments JProof {P} π.

Class Host `{Groth16} : Type := {
  projectRoot : string;
  JSON_stringify : json proof -> string
}.

Definition path_join (a b : string) : string := a +:+ "/" +:+ b.

(** The part of the file system the scripts touch. *)
Record fs : Type := {
  dirs : gset string;
  files : gmap string string
}.

Definition existsSync (path : string) (σ : fs) : bool :=
  bool_decide (path ∈ dirs σ) || bool_decide (is_Some (files σ !! path)).

Definition mkdirSync (path : string) (σ : fs) : fs :=
  {| dirs := {[ path ]} ∪ dirs σ; files := files σ |}.

Definition writeFileSync (path content : string) (σ : fs) : fs :=
  {| dirs := dirs σ; files := <[ path := content ]> (files σ) |}.

(** Property access on objects; reading a property of [undefined] throws. *)
Fixpoint assoc {V} (k : string) (fields : list (string * V)) : option V :=
  match fields with
  | [] => None
  | (k', v) :: rest => if String.eqb k k' then Some v else assoc k rest
  end.

Definition prop {P} (k : string) (j : json P) : result (json P) :=
  match j with
  | JObject fields =>
      match assoc k fields with
      | Some v => Ok v
      | None => Err MalformedArtifact
      end
  | _ => Err MalformedArtifact
  end.

Fixpoint as_strings {P} (l : list (json P)) : result (list string) :=
  match l with
  | [] => Ok []
  | JString s :: rest => ss ← as_strings rest; Ok (s :: ss)
  | _ :: _ => Err MalformedArtifact
  end.

Definition as_signals {P} (j : json P) : result (list string) :=
  match j with
  | JArray l => as_strings l
  | _ => Err MalformedArtifact
  end.

Definition as_proof {P} (j : json P) : result P :=
  match j with
  | JProof π => Ok π
  | _ => Err MalformedArtifact
  end.

(** [v.k] and [v[k]] as JavaScript evaluates them, for the property names
    the scripts read ([proofs], the circuit names, [publicSignals], [proof]);
    [None] is [undefined].  Reading a property of [undefined] throws a
    TypeError; an object gives the field's value, or [undefined] when it has
    no such field; a string, an array or a proof object has none of these
    names and gives [undefined]. *)
Definition property {P} (k : string) (v : option (json P))
  : result (option (json P)) :=
  match v with
  | None => Err MalformedArtifact
  | Some (JObject fields) => Ok (assoc k fields)
  | Some _ => Ok None
  end.

(** [obj[k] = v]: overwrite in place, or append a new key. *)
Fixpoint obj_set {V} (k : string) (v : V) (fields : list (string * V))
  : list (string * V) :=
  match fields with
  | [] => [(k, v)]
  | (k', v') :: rest =>
      if String.eqb k k' then (k, v) :: rest else (k', v') :: obj_set k v rest
  end.

Definition Object_values {V} (fields : list (string * V)) : list V :=
  map snd fields.

Definition Object_keys {V} (fields : list (string * V)) : list string :=
  map fst fields.

(* ================================================================= *)
(** ** [scripts/generate-proof.js] *)

Module generate_proof.
Section scripts.
Context `{Host}.

Definition generateProof (c : circuit) (i : input) (σ : fs)
  : fs * result (proof * list string) :=
  match fullProve c i with
  | Err e => (σ, Err e)
  | Ok (π, publicSignals) =>
      let proofPath :=
        path_join (path_join projectRoot "data") (circuitName c +:+ "_proof.json") in
      let publicPath :=
        path_join (path_join projectRoot "data") (circuitName c +:+ "_public.json") in
      let dataDir := path_join projectRoot "data" in
      let σ1 := if existsSync dataDir σ then σ else mkdirSync dataDir σ in
      let σ2 := writeFileSync proofPath (JSON_stringify (JProof π)) σ1 in
      let σ3 :=
        writeFileSync publicPath
          (JSON_stringify (JArray (map JString publicSignals))) σ2 in
      (σ3, Ok (π, publicSignals))
  end.



End scripts.
End generate_proof.

(* ================================================================= *)
(** ** [scripts/demo.js] *)

Module demo.
Section scripts.
Context `{Host}.

Definition ensureDataDir (σ : fs) : fs :=
  let dataDir := path_join projectRoot "data" in
  if existsSync dataDir σ then σ else mkdirSync dataDir σ.

Definition fullProveAndPersist (c : circuit) (i : input) (σ : fs)
  : fs * result (proof * list string) :=
  match fullProve c i with
  | Err e => (σ, Err e)
  | Ok (π, publicSignals) =>
      let σ1 := ensureDataDir σ in
      let σ2 :=
        writeFileSync
          (path_join (path_join projectRoot "data") (circuitName c +:+ "_proof.json"))
          (JSON_stringify (JProof π)) σ1 in
      let σ3 :=
        writeFileSync
          (path_join (path_join projectRoot "data") (circuitName c +:+ "_public.json"))
          (JSON_stringify (JArray (map JString publicSignals))) σ2 in
      (σ3, Ok (π, publicSignals))
  end.

End scripts.
End demo.

(* ================================================================= *)
(** ** [scripts/composite-proof.js] *)

(** [groth16.verify(vKey, publicSignals, proof)] as [verifyCompositeProof]
    calls it: on the two values the composite stores, whatever they are
    ([None] is [undefined]).  The script checks nothing before the call, and
    the call may throw. *)
Class StoredVerifier `{Groth16} : Type := {
  groth16_verify_stored :
    vkey -> option (json proof) -> option (json proof) -> result bool
}.


(** The object [proofs] of [generateIndividualProofs]: one
    [{proof, publicSignals}] pair per claim. *)
Record individualProofs (P : Type) : Type := {
  compute : P * list string;
  evaluation : P * list string;
  policy : P * list string
}.
Arguments compute {P} _.
Arguments evaluation {P} _.
Arguments policy {P} _.

Module composite_proof.
Section scripts.
Context `{Host} `{!StoredVerifier}.

Definition generateProof (c : circuit) (i : input)
  : result (proof * list string) :=
  fullProve c i.

Definition generateIndividualProofs : result (individualProofs proof) :=
  compute ← generateProof compute_threshold
              (ComputeInput 5000000000000000000000000 10000000000000000000000000);
  evaluation ← generateProof evaluation_attestation
                 (EvaluationInput [1; 1; 1; 1; 1] 5);
  policy ← generateProof policy_compliance
             (PolicyInput [1; 1; 1; 1; 1; 1; 1; 1] 8);
  Ok {| compute := compute; evaluation := evaluation; policy := policy |}.

(** [now] is [new Date().toISOString()]. *)
Definition composeProofs (now : string) (proofs : individualProofs proof) (σ : fs)
  : fs * json proof :=
  let compositeProof :=
    JObject [
      ("version", JString "1.0");
      ("timestamp", JString now);
      ("proofs", JObject [
         ("compute_threshold", JObject [
            ("proof", JProof (fst (compute proofs)));
            ("publicSignals", JArray (map JString (snd (compute proofs))));
            ("claim", JString "Training compute below regulatory threshold")]);
         ("evaluation_attestation", JObject [
            ("proof", JProof (fst (evaluation proofs)));
            ("publicSignals", JArray (map JString (snd (evaluation proofs))));
            ("claim", JString "All required safety evaluations completed")]);
         ("policy_compliance", JObject [
            ("proof", JProof (fst (policy proofs)));
            ("publicSignals", JArray (map JString (snd (policy proofs))));
            ("claim", JString "Responsible Scaling Policy requirements met")])]);
      ("metadata", JObject [
         ("submitter", JString "AI Lab Example Inc.");
         ("framework", JString "EU AI Act + RSP");
         ("compositionMethod", JString "bundled_verification")])] in
  let dataDir := path_join projectRoot "data" in
  let σ1 := if existsSync dataDir σ then σ else mkdirSync dataDir σ in
  let compositePath := path_join dataDir "composite_proof.json" in
  (writeFileSync compositePath (JSON_stringify compositeProof) σ1, compositeProof).

(** One round of the loop of [verifyCompositeProof]:
    [proofData = compositeProof.proofs[circuit]], then
    [groth16.verify(vKey, proofData.publicSignals, proofData.proof)]. *)
Definition verifyMember (compositeProof : json proof) (c : circuit) : result bool :=
  let vKey := verification_key c in
  proofs ← property "proofs" (Some compositeProof);
  proofData ← property (circuitName c) proofs;
  publicSignals ← property "publicSignals" proofData;
  π ← property "proof" proofData;
  groth16_verify_stored vKey publicSignals π.

Fixpoint verifyLoop (circuits : list circuit) (compositeProof : json proof)
  (results : list (string * bool)) : result (list (string * bool)) :=
  match circuits with
  | [] => Ok results
  | c :: rest =>
      isValid ← verifyMember compositeProof c;
      verifyLoop rest compositeProof (obj_set (circuitName c) isValid results)
  end.

Definition circuits : list circuit :=
  [compute_threshold; evaluation_attestation; policy_compliance].

Definition verifyCompositeProof (compositeProof : json proof)
  : result (list (string * bool)) :=
  verifyLoop circuits compositeProof [].

(** [Object.values(results).every(v => v)] *)
Definition allValid (results : list (string * bool)) : bool :=
  forallb (fun v : bool => v) (Object_values results).

(** The verdict [main] prints for a composite. *)
Definition compositeVerdict (compositeProof : json proof) : result bool :=
  results ← verifyCompositeProof compositeProof;
  Ok (allValid results).

Definition main (now : string) (σ : fs) : fs * result bool :=
  match generateIndividualProofs return fs * result bool with
  | Err e => (σ, Err e)
  | Ok proofs =>
      let composed := composeProofs now proofs σ in
      (fst composed, compositeVerdict (snd composed))
  end.
End scripts.
End composite_proof.

(** Independent verification of one member pair under its circuit's key:
    the verifier's call on the pair as a bundle stores it. *)
Definition member_verifies `{StoredVerifier} (c : circuit) (m : proof * list string)
  : result bool :=
  groth16_verify_stored (verification_key c)
    (Some (JArray (map JString (snd m)))) (Some (JProof (fst m))).

(** The entry of a composite for a circuit: [compositeProof.proofs[circuit]]. *)
Definition member_entry {P} (compositeProof : json P) (c : circuit)
  : result (option (json P)) :=
  property "proofs" (Some compositeProof) ≫= property (circuitName c).

(** Modelled from the spec: a composite is valid iff every member it holds
    verifies true under the key of the circuit its entry is named after.  An
    entry named after no circuit has no key to verify under. *)
Definition circuit_named (k : string) : option circuit :=
  List.find (fun c => String.eqb (circuitName c) k) composite_proof.circuits.

Definition spec_member_verifies `{StoredVerifier} (k : string) (m : json proof) : bool :=
  match circuit_named k with
  | Some c =>
      match (publicSignals ← property "publicSignals" (Some m);
             π ← property "proof" (Some m);
             groth16_verify_stored (verification_key c) publicSignals π) with
      | Ok isValid => isValid
      | Err _ => false
      end
  | None => false
  end.

Definition spec_composite_valid `{StoredVerifier} (c : json proof) : bool :=
  match property "proofs" (Some c) with
  | Ok (Some (JObject members)) =>
      forallb (fun e => spec_member_verifies (fst e) (snd e)) members
  | _ => false
  end.

(** A file system with nothing in it. *)
Definition empty_fs : fs := {| dirs := ∅; files := ∅ |}.

(* ================================================================= *)
(** ** Artifact layouts *)

Definition has_field {P} (k : string) (j : json P) : bool := is_ok (prop k j).

(** Modelled from the spec: the composite artifact schema of the external
    interfaces section, [{version, timestamp, submitter, framework,
    claims: {claimId -> {proof, publicInputVector, label}}}].  Only the
    presence of the named fields is asked for. *)
Definition spec_composite_schema {P} (j : json P) : bool :=
  has_field "version" j && has_field "timestamp" j
  && has_field "submitter" j && has_field "framework" j
  && match prop "claims" j with
     | Ok (JObject claims) =>
         forallb (fun e => has_field "proof" (snd e)
                           && has_field "publicInputVector" (snd e)
                           && has_field "label" (snd e)) claims
     | _ => false
     end.

(** The layout [composeProofs] writes. *)
Definition bundled_schema {P} (j : json P) : bool :=
  match j with
  | JObject top =>
      bool_decide (Object_keys top = ["version"; "timestamp"; "proofs"; "metadata"])
      && match prop "proofs" j with
         | Ok (JObject members) =>
             bool_decide (Object_keys members =
                            map circuitName composite_proof.circuits)
             && forallb (fun e =>
                           match snd e with
                           | JObject entry =>
                               bool_decide (Object_keys entry =
                                              ["proof"; "publicSignals"; "claim"])
                           | _ => false
                           end) members
         | _ => false
         end
      && match prop "metadata" j with
         | Ok (JObject meta) =>
             bool_decide (Object_keys meta =
                            ["submitter"; "framework"; "compositionMethod"])
         | _ => false
         end
  | _ => false
  end.

(* ================================================================= *)
(** ** A transparent instance of the engine

    An engine whose proof is the witness itself and whose verifier re-checks
    the constraints.  It is complete, so the assumptions made on the external
    engine are consistent; it hides nothing and only serves as an instance. *)

Definition circuit_eqb (a b : circuit) : bool :=
  match a, b with
  | compute_threshold, compute_threshold
  | evaluation_attestation, evaluation_attestation
  | policy_compliance, policy_compliance => true
  | _, _ => false
  end.

#[local] Instance transparent_engine : Groth16 := {|
  proof := witness;
  vkey := circuit;
  verification_key := fun c => c;
  groth16_prove := fun w => w;
  groth16_verify := fun vk pub w =>
    constraints_hold w && circuit_eqb (witness_circuit w) vk
    && bool_decide (publicSignals w = pub)
|}.

Fixpoint show_json (j : json witness) : string :=
  match j with
  | JString s => "'" +:+ s +:+ "'"
  | JArray l =>
      "[" +:+ (fix items (l : list (json witness)) : string :=
                 match l with
                 | [] => "]"
                 | x :: rest => show_json x +:+ "," +:+ items rest
                 end) l
  | JObject fields =>
      "{" +:+ (fix items (l : list (string * json witness)) : string :=
                 match l with
                 | [] => "}"
                 | (k, v) :: rest => k +:+ ":" +:+ show_json v +:+ "," +:+ items rest
                 end) fields
  | JProof w => "<" +:+ circuitName (witness_circuit w) +:+ ">"
  end.

#[local] Instance transparent_host : @Host transparent_engine := {|
  projectRoot := "/zk-govproof";
  JSON_stringify := show_json
|}.

(* ================================================================= *)
(** ** Integer readings of signals *)

Definition is_bit (b : Fp) : Prop := b = 0%Fp \/ b = 1%Fp.

(** The integer a list of bit signals denotes, least significant first. *)
Fixpoint bits_value (out : list Fp) : Z :=
  match out with
  | [] => 0
  | b :: bs => Zmod.to_Z b + 2 * bits_value bs
  end.

(** The bits [(x >> i) & 1], [(x >> (i+1)) & 1], ... the witness computation
    of [Num2Bits] assigns. *)
Fixpoint bits_from (x : Fp) (i : Z) (k : nat) : list Fp :=
  match k with
  | O => []
  | S k' => band (shr x i) 1%Fp :: bits_from x (i + 1) k'
  end.

(** Sum of the flags, read as integers, and the number of flags equal to 1. *)
Definition flag_sum (fl : list Fp) : Z :=
  fold_right (fun f acc => Zmod.to_Z f + acc) 0 fl.

Definition count_ones (fl : list Fp) : Z :=
  Z.of_nat (length (List.filter (fun f => (f =? 1)%Fp) fl)).

(** The compliance predicates on the numbers of an input record, for inputs
    within the comparators' ranges. *)
Definition Zsum (l : list Z) : Z := fold_right Z.add 0 l.

Definition boolean_flags (N : nat) (fl : list Z) : Prop :=
  length fl = N /\ Forall (fun f => f = 0 \/ f = 1) fl.

Definition compliant (c : circuit) (i : input) : Prop :=
  match c, i with
  | compute_threshold, ComputeInput v T => 0 <= v < T /\ T < 2 ^ 252
  | evaluation_attestation, EvaluationInput fl k =>
      boolean_flags 5 fl /\ 0 <= k <= Zsum fl
  | policy_compliance, PolicyInput fl k =>
      boolean_flags 8 fl /\ 0 <= k <= Zsum fl
  | _, _ => False
  end.

(** The declared public input of an input record. *)
Definition public_input (i : input) : Z :=
  match i with
  | ComputeInput _ T => T
  | EvaluationInput _ k => k
  | PolicyInput _ k => k
  end.

(* ================================================================= *)
(** ** [scripts/verify-proof.js] *)

(** [JSON.parse]; [None] when it throws. *)
Class JSONParse `{Host} : Type := {
  JSON_parse : string -> option (json proof)
}.

(** Reading back what [JSON.stringify] wrote gives the value written, for the
    two kinds of artifact the scripts persist per circuit. *)
Class ArtifactRoundTrip `{JSONParse} : Prop := {
  parse_proof : forall π : proof,
    JSON_parse (JSON_stringify (JProof π)) = Some (JProof π);
  parse_signals : forall l : list string,
    JSON_parse (JSON_stringify (JArray (map JString l)))
    = Some (JArray (map JString l))
}.

(** [fs.readFileSync(path, 'utf8')]; [None] when the file does not exist. *)
Definition readFileSync (path : string) (σ : fs) : option string :=
  files σ !! path.

Definition result_to_option {A} (r : result A) : option A :=
  match r with
  | Ok a => Some a
  | Err _ => None
  end.

Module verify_proof.
Section scripts.
Context `{JSONParse}.

(** [None] stands for a thrown exception: a missing file, text that does not
    parse, or values the verifier cannot read as a proof and its signals. *)
Definition verifyProof (c : circuit) (σ : fs) : option bool :=
  let vKey := verification_key c in
  let proofPath :=
    path_join (path_join projectRoot "data") (circuitName c +:+ "_proof.json") in
  let publicPath :=
    path_join (path_join projectRoot "data") (circuitName c +:+ "_public.json") in
  proofText ← readFileSync proofPath σ;
  proofJson ← JSON_parse proofText;
  publicText ← readFileSync publicPath σ;
  publicJson ← JSON_parse publicText;
  publicSignals ← result_to_option (as_signals publicJson);
  π ← result_to_option (as_proof proofJson);
  Some (groth16_verify vKey publicSignals π).

(** The summary's verdict: [Object.values(results).every(v => v)]. *)
Definition interpretResults (results : list (string * bool)) : bool :=
  forallb (fun v : bool => v) (Object_values results).

Definition circuits : list circuit :=
  [compute_threshold; evaluation_attestation; policy_compliance].

(** The loop of [main]: an exception from [verifyProof] is caught and
    recorded as [false]. *)
Fixpoint mainLoop (circuits : list circuit) (σ : fs) (results : list (string * bool))
  : list (string * bool) :=
  match circuits with
  | [] => results
  | c :: rest =>
      let v := match verifyProof c σ with
               | Some isValid => isValid
               | None => false
               end in
      mainLoop rest σ (obj_set (circuitName c) v results)
  end.

Definition main (σ : fs) : list (string * bool) :=
  mainLoop circuits σ [].
End scripts.
End verify_proof.




(** [compositeProof.proofs[k] = j]: one more entry in a composite's map of
    claims. *)
Definition add_claim {P} (k : string) (j : json P) (c : json P) : json P :=
  match c with
  | JObject top =>
      match assoc "proofs" top with
      | Some (JObject members) =>
          JObject (obj_set "proofs" (JObject (obj_set k j members)) top)
      | _ => c
      end
  | _ => c
  end.

(* ================================================================= *)
(** ** An instance with artifacts that can be read back

    An engine whose proof repeats the circuit's name and the public signals,
    and a host that writes lists of strings in a form it can parse.  Like the
    transparent engine it only shows the assumptions on the external parts to
    be consistent. *)

#[local] Instance echo_engine : Groth16 := {|
  proof := list string;
  vkey := circuit;
  verification_key := fun c => c;
  groth16_prove := fun w => circuitName (witness_circuit w) :: publicSignals w;
  groth16_verify := fun vk pub π => bool_decide (π = circuitName vk :: pub)
|}.

(** Each character is written after an [x], each string is closed by a dot. *)
Fixpoint write_string (e : string) (k : string) : string :=
  match e with
  | EmptyString => String "."%char k
  | String ch e' => String "x"%char (String ch (write_string e' k))
  end.

Definition write_strings (l : list string) : string :=
  fold_right write_string EmptyString l.

Fixpoint read_strings (s : string) : option (list string) :=
  match s with
  | EmptyString => Some []
  | String "."%char rest =>
      match read_strings rest with
      | Some l => Some (EmptyString :: l)
      | None => None
      end
  | String "x"%char (String ch rest) =>
      match read_strings rest with
      | Some (e :: l) => Some (String ch e :: l)
      | _ => None
      end
  | _ => None
  end.

Definition echo_stringify (j : json (list string)) : string :=
  match j with
  | JProof π => String "P"%char (write_strings π)
  | JArray l =>
      match as_strings l with
      | Ok ss => String "A"%char (write_strings ss)
      | Err _ => "?"
      end
  | _ => "?"
  end.

Definition echo_parse (s : string) : option (json (list string)) :=
  match s with
  | String "P"%char rest => JProof <$> read_strings rest
  | String "A"%char rest => (fun ss => JArray (map JString ss)) <$> read_strings rest
  | _ => None
  end.

#[local] Instance echo_host : @Host echo_engine := {|
  projectRoot := "/zk-govproof";
  JSON_stringify := echo_stringify
|}.

#[local] Instance echo_parser : @JSONParse echo_engine echo_host := {|
  JSON_parse := echo_parse
|}.

(** A stored verifier for any engine: it reads a vector of strings and a
    proof object and throws on anything else.  Like the engines above it only
    serves as an instance. *)
Definition strict_verifier (G : Groth16) : @StoredVerifier G := {|
  groth16_verify_stored := fun vk publicSignals π =>
    match publicSignals, π with
    | Some ps, Some pj =>
        pub ← as_signals ps; π' ← as_proof pj; Ok (groth16_verify vk pub π')
    | _, _ => Err MalformedArtifact
    end
|}.

(** Composites for the echo engine, written by hand in the layout of
    [composeProofs]. *)
Definition echo_member (c : circuit) (pub : list string) (label : string)
  : json (list string) :=
  JObject [("proof", JProof (circuitName c :: pub));
           ("publicSignals", JArray (map JString pub));
           ("claim", JString label)].

Definition echo_members : list (string * json (list string)) :=
  [("compute_threshold",
    echo_member compute_threshold ["1"; "10000000000000000000000000"]
      "Training compute below regulatory threshold");
   ("evaluation_attestation",
    echo_member evaluation_attestation ["1"; "5"]
      "All required safety evaluations completed");
   ("policy_compliance",
    echo_member policy_compliance ["1"; "8"]
      "Responsible Scaling Policy requirements met")].

Definition echo_composite (members : list (string * json (list string)))
  : json (list string) :=
  JObject [("version", JString "1.0");
           ("timestamp", JString "2026-01-01T00:00:00.000Z");
           ("proofs", JObject members);
           ("metadata", JObject [
              ("submitter", JString "AI Lab Example Inc.");
              ("framework", JString "EU AI Act + RSP");
              ("compositionMethod", JString "bundled_verification")])].

(** A member whose proof verifies under no key. *)
Definition forged_member : json (list string) :=
  JObject [("proof", JProof ["forged"]);
           ("publicSignals", JArray [JString "0"]);
           ("claim", JString "A claim nobody checked")].

Definition three_member_composite : json (list string) :=
  echo_composite echo_members.

(** The same without the policy claim. *)
Definition two_member_composite : json (list string) :=
  echo_composite (List.firstn 2 echo_members).

(** The three members and one more, forged. *)
Definition four_member_composite : json (list string) :=
  echo_composite (echo_members ++ [("extra_claim", forged_member)]).

(* ================================================================= *)
(** * Number theory: the modulus is prime *)

Lemma trial_sound fuel : forall d n,
  trial fuel d n = true -> 1 < d ->
  (forall k, 1 < k < d -> ~ (k | n)) ->
  forall k, 1 < k -> k * k <= n -> ~ (k | n).
Proof.
  induction fuel as [|f IH]; intros d n Ht Hd Hlow k Hk Hkk; simpl in Ht;
    destruct (n <? d * d) eqn:E.
  - apply Z.ltb_lt in E. apply Hlow. nia.
  - discriminate.
  - apply Z.ltb_lt in E. apply Hlow. nia.
  - apply andb_prop in Ht as [Hnd Hrec].
    apply negb_true_iff, Z.eqb_neq in Hnd.
    apply (IH (d + 1) n Hrec); try lia.
    intros j Hj. destruct (Z.eq_dec j d) as [->|Hne].
    + intros Hdiv. apply Hnd. apply Z.mod_divide; [lia | exact Hdiv].
    + apply Hlow. lia.
Qed.

Lemma prime_trial_sound n : prime_trial n = true -> Z.prime n.
Proof.
  unfold prime_trial. intros H. apply andb_prop in H as [H1 Ht].
  apply Z.ltb_lt in H1. split; [exact H1|].
  intros k Hk [m Hm].
  assert (Hsmall : forall j, 1 < j -> j * j <= n -> ~ (j | n)).
  { apply (trial_sound _ 2 n Ht); lia. }
  assert (Hmpos : 1 < m) by nia.
  destruct (Z_le_gt_dec (k * k) n) as [Hle|Hgt].
  - apply (Hsmall k); [lia | exact Hle | exists m; exact Hm].
  - apply (Hsmall m); [lia | nia | exists k; lia].
Qed.

Lemma prime_divisor_exists n : 1 < n -> exists r, Z.prime r /\ (r | n).
Proof.
  intros Hn. assert (H0 : 0 <= n) by lia. revert Hn.
  pattern n. apply Z_lt_induction; [|exact H0].
  clear n H0. intros n IH Hn.
  destruct (prime_dec n) as [Hp|Hnp].
  - exists n. split; [apply prime_alt; exact Hp | apply Z.divide_refl].
  - destruct (not_prime_divide n Hn Hnp) as (m & Hm & Hdiv).
    destruct (IH m) as (r & Hr & Hrm); try lia.
    exists r. split; [exact Hr | eapply Z.divide_trans; eassumption].
Qed.

Lemma composite_small_factor N :
  1 < N -> ~ Z.prime N -> exists r, Z.prime r /\ (r | N) /\ r * r <= N.
Proof.
  intros HN Hnp.
  assert (Hnp' : ~ prime N) by (rewrite <- prime_alt; exact Hnp).
  destruct (not_prime_divide N HN Hnp') as (k & Hk & [m Hm]).
  assert (Hmpos : 1 < m) by nia.
  assert (Hpick : exists j, 1 < j /\ (j | N) /\ j * j <= N).
  { destruct (Z_le_gt_dec (k * k) N).
    - exists k. repeat split; try lia. exists m; exact Hm.
    - exists m. repeat split; try lia; try nia. exists k; lia. }
  destruct Hpick as (j & Hj & HjN & Hjj).
  destruct (prime_divisor_exists j Hj) as (r & Hr & Hrj).
  exists r. split; [exact Hr|]. split; [eapply Z.divide_trans; eassumption|].
  pose proof (Z.prime_ge_2 r Hr).
  assert (r <= j) by (apply Z.divide_pos_le; [lia | exact Hrj]).
  nia.
Qed.

Lemma pow_mod_one a d r k :
  0 <= d -> 0 <= k -> 1 < r -> a ^ d mod r = 1 -> a ^ (d * k) mod r = 1.
Proof.
  intros Hd Hk Hr H.
  rewrite Z.pow_mul_r by lia.
  rewrite <- Z.mod_pow_l, H, Z.pow_1_l by lia.
  apply Z.mod_1_l; lia.
Qed.

(** Either no exponent up to [n] sends [a] to 1 modulo [r], or there is a
    least one: the order of [a]. *)
Lemma order_exists a r n :
  0 <= n ->
  (forall k, 0 < k <= n -> a ^ k mod r <> 1) \/
  (exists d, 0 < d <= n /\ a ^ d mod r = 1
             /\ forall k, 0 < k < d -> a ^ k mod r <> 1).
Proof.
  intros Hn. pattern n. apply natlike_ind; [| |exact Hn].
  - left. intros k Hk. lia.
  - clear n Hn. intros n Hn [Hnone|(d & Hd & Hd1 & Hmin)].
    + destruct (Z.eq_dec (a ^ (Z.succ n) mod r) 1) as [E|E].
      * right. exists (Z.succ n). split; [lia|]. split; [exact E|].
        intros k Hk. apply Hnone. lia.
      * left. intros k Hk. destruct (Z.eq_dec k (Z.succ n)) as [->|Hne];
          [exact E | apply Hnone; lia].
    + right. exists d. split; [lia|]. split; assumption.
Qed.

Lemma order_divides a r d m :
  1 < r -> 0 < d -> a ^ d mod r = 1 ->
  (forall k, 0 < k < d -> a ^ k mod r <> 1) ->
  0 <= m -> a ^ m mod r = 1 -> (d | m).
Proof.
  intros Hr Hd Hd1 Hmin Hm Hm1.
  pose proof (Z.mod_pos_bound m d Hd) as Hb.
  pose proof (Z.div_mod m d ltac:(lia)) as Hdm.
  assert (Hq : 0 <= m / d) by (apply Z.div_pos; lia).
  destruct (Z.eq_dec (m mod d) 0) as [E|E].
  - apply Z.mod_divide; [lia | exact E].
  - exfalso. apply (Hmin (m mod d)); [lia|].
    rewrite Hdm in Hm1.
    rewrite Z.pow_add_r in Hm1 by nia.
    rewrite Z.mul_mod in Hm1 by lia.
    rewrite (pow_mod_one a d r (m / d)) in Hm1 by lia.
    rewrite Z.mul_1_l, Z.mod_mod in Hm1 by lia. exact Hm1.
Qed.

Lemma prime_power_divides_order d n x q e :
  Z.prime q -> 0 <= e -> (d | n) -> (q ^ e | n) -> n = x * q ->
  ~ (d | x) -> (q ^ e | d).
Proof.
  intros Hq He [k Hk] Hqe Hx Hnd.
  pose proof (Z.prime_ge_2 q Hq) as Hq2.
  assert (Hqk : ~ (q | k)).
  { intros [k' Hk']. apply Hnd. exists k'. nia. }
  assert (Hc : Z.coprime (q ^ e) k).
  { apply Z.coprime_pow_l; [exact He|]. apply Z.coprime_prime_l; assumption. }
  rewrite Hk in Hqe. apply Z.gauss with (m := k); [exact Hqe | exact Hc].
Qed.

Lemma lcm_pp_divides qs x :
  Forall (fun qe => (fst qe ^ snd qe | x)) qs -> (lcm_pp qs | x).
Proof.
  induction 1 as [|qe qs Hqe _ IH]; simpl.
  - apply Z.divide_1_l.
  - apply Z.lcm_least; assumption.
Qed.

Lemma lcm_pp_nonneg qs : 0 <= lcm_pp qs.
Proof. induction qs; simpl; [lia | apply Z.lcm_nonneg]. Qed.

(** Pocklington's criterion, for a certificate accepted by [pock_check]. *)
Theorem pocklington N a m K qs :
  Forall (fun qe => Z.prime (fst qe)) qs ->
  pock_check N a m K qs = true -> Z.prime N.
Proof.
  intros Hprimes Hchk. unfold pock_check in Hchk.
  cbv zeta in Hchk.
  apply andb_prop in Hchk as [Hchk Hsize].
  apply andb_prop in Hchk as [Hchk Hall].
  apply andb_prop in Hchk as [Hchk Hfermat].
  apply andb_prop in Hchk as [Hchk HmK].
  apply andb_prop in Hchk as [Hchk HK].
  apply andb_prop in Hchk as [HN Hm].
  apply Z.ltb_lt in HN, Hsize, HK. apply Z.eqb_eq in Hfermat, HmK.
  apply Z.leb_le in Hm.
  rewrite !Zpow_mod_correct in Hfermat by lia.
  rewrite Z.mod_pow_l, <- Z.pow_mul_r, <- HmK in Hfermat by lia.
  destruct (prime_dec N) as [Hp|Hnp]; [apply prime_alt; exact Hp|].
  exfalso. rewrite <- prime_alt in Hnp.
  destruct (composite_small_factor N HN Hnp) as (r & Hr & HrN & Hrr).
  pose proof (Z.prime_ge_2 r Hr) as Hr2.
  assert (Hmodr : forall x, (x mod N) mod r = x mod r).
  { intros x. apply Z.mod_mod_divide. exact HrN. }
  assert (Har : a ^ (N - 1) mod r = 1).
  { rewrite <- Hmodr, Hfermat. apply Z.mod_1_l. lia. }
  destruct (order_exists a r (N - 1) ltac:(lia)) as [Hnone|(d & Hd & Hd1 & Hmin)].
  { apply (Hnone (N - 1)); [lia | exact Har]. }
  assert (HdN : (d | N - 1)) by (apply (order_divides a r); auto; lia).
  assert (Hanz : a mod r <> 0).
  { intros Hz. rewrite <- Z.mod_pow_l, Hz, Z.pow_0_l, Z.mod_0_l in Har by lia. lia. }
  assert (Hdr : (d | r - 1)).
  { apply (order_divides a r); auto; try lia. apply Z.fermat_nz; assumption. }
  assert (HF : (lcm_pp qs | r - 1)).
  { apply lcm_pp_divides. rewrite List.Forall_forall. intros [q e] Hin. simpl.
    rewrite List.Forall_forall in Hprimes. specialize (Hprimes _ Hin). simpl in Hprimes.
    rewrite List.forallb_forall in Hall. specialize (Hall _ Hin). simpl in Hall.
    apply andb_prop in Hall as [Hall Hgcd]. apply andb_prop in Hall as [Hall HqK].
    apply andb_prop in Hall as [He Hdiv].
    apply Z.leb_le in He. apply Z.eqb_eq in Hdiv, Hgcd, HqK.
    rewrite !Zpow_mod_correct in Hgcd by lia.
    pose proof (Z.prime_ge_2 q Hprimes) as Hq2.
    assert (HKq : K = K / q * q).
    { pose proof (Z.div_mod K q ltac:(lia)). lia. }
    assert (HKq0 : 0 <= K / q) by (apply Z.div_pos; lia).
    rewrite Z.mod_pow_l, <- Z.pow_mul_r in Hgcd by lia.
    apply Z.divide_trans with d; [|exact Hdr].
    apply prime_power_divides_order with (n := N - 1) (x := m * (K / q)); auto.
    - apply Z.mod_divide; [|exact Hdiv]. apply Z.pow_nonzero; lia.
    - rewrite HmK. rewrite HKq at 1. ring.
    - intros [k Hk].
      assert (Hkpos : 0 <= k) by nia.
      assert (H1 : a ^ (m * (K / q)) mod r = 1).
      { rewrite Hk, Z.mul_comm. apply pow_mod_one; lia. }
      assert (Hrg : (r | Z.gcd (a ^ (m * (K / q)) mod N - 1) N)).
      { apply Z.gcd_greatest; [|exact HrN].
        apply Z.mod_divide; [lia|].
        rewrite Zminus_mod, Hmodr, H1. rewrite (Z.mod_1_l r) by lia.
        rewrite Z.sub_diag. apply Z.mod_0_l. lia. }
      rewrite Hgcd in Hrg. apply Z.divide_1_r_nonneg in Hrg; lia. }
  pose proof (lcm_pp_nonneg qs) as HFpos.
  assert (lcm_pp qs <= r - 1) by (apply Z.divide_pos_le; [lia | exact HF]).
  nia.
Qed.

Ltac prime_by_trial := apply prime_trial_sound; vm_compute; reflexivity.

Lemma prime_12048837557 : Z.prime 12048837557.
Proof.
  apply (pocklington _ 2 196 61473661 [(93001, 1); (661, 1)]).
  - repeat (constructor; [prime_by_trial|]). constructor.
  - vm_compute. reflexivity.
Qed.

Lemma prime_5156902474397 : Z.prime 5156902474397.
Proof.
  apply (pocklington _ 2 428 12048837557 [(12048837557, 1)]).
  - constructor; [exact prime_12048837557 | constructor].
  - vm_compute. reflexivity.
Qed.

Lemma prime_1670836401704629 : Z.prime 1670836401704629.
Proof.
  apply (pocklington _ 2 324 5156902474397 [(5156902474397, 1)]).
  - constructor; [exact prime_5156902474397 | constructor].
  - vm_compute. reflexivity.
Qed.

Lemma prime_405928799 : Z.prime 405928799.
Proof.
  apply (pocklington _ 2 22 18451309 [(4999, 1); (3691, 1)]).
  - repeat (constructor; [prime_by_trial|]). constructor.
  - vm_compute. reflexivity.
Qed.

(** The order of the BN128 scalar field is prime. *)
Theorem prime_p : Z.prime p.
Proof.
  apply (pocklington _ 5
           22687871872206707959085260508140728648877473792
           964755222311220774476419192098
           [(2, 28); (3, 2); (237073, 1); (405928799, 1);
            (1670836401704629, 1)]).
  - constructor; [exact Z.prime_2|].
    constructor; [exact Z.prime_3|].
    constructor; [prime_by_trial|].
    constructor; [exact prime_405928799|].
    constructor; [exact prime_1670836401704629|].
    constructor.
  - vm_cast_no_check (eq_refl true).
Qed.

(* ================================================================= *)
(** * The field *)

Lemma p_bounds : 2 ^ 253 < p < 2 ^ 254.
Proof. split; reflexivity. Qed.

Lemma p_pos : 0 < p.
Proof. reflexivity. Qed.

Lemma p_gt_1 : 1 < p.
Proof. reflexivity. Qed.

Lemma p_nonzero : p <> 0.
Proof. discriminate. Qed.

Lemma to_Z_bound (x : Fp) : 0 <= Zmod.to_Z x < p.
Proof. apply Zmod.unsigned_pos_bound. exact p_pos. Qed.

Lemma to_Z_0 : Zmod.to_Z 0%Fp = 0.
Proof. reflexivity. Qed.

Lemma to_Z_1 : Zmod.to_Z 1%Fp = 1.
Proof. reflexivity. Qed.

Lemma to_Z_small z : 0 <= z < p -> Zmod.to_Z (Zmod.of_Z p z) = z.
Proof. intros Hz. rewrite Zmod.to_Z_of_Z. apply Z.mod_small. exact Hz. Qed.

Lemma Fp_eqb_eq (a b : Fp) : (a =? b)%Fp = true <-> a = b.
Proof. apply Zmod.eqb_eq. Qed.

Lemma Fp_eq_to_Z (a b : Fp) : a = b <-> Zmod.to_Z a = Zmod.to_Z b.
Proof. split; [intros ->; reflexivity | apply Zmod.to_Z_inj]. Qed.

Lemma of_Z_eq_small a b :
  0 <= a < p -> 0 <= b < p -> Zmod.of_Z p a = Zmod.of_Z p b -> a = b.
Proof.
  intros Ha Hb E. apply (f_equal Zmod.to_Z) in E.
  rewrite !to_Z_small in E; assumption.
Qed.

Lemma constrain_ok a b : constrain a b = Ok tt <-> a = b.
Proof.
  unfold constrain. destruct (a =? b)%Fp eqn:E.
  - apply Fp_eqb_eq in E. tauto.
  - split; [discriminate|]. intros ->. rewrite Zmod.eqb_refl in E. discriminate.
Qed.

Lemma constrain_cases a b :
  constrain a b = if (a =? b)%Fp then Ok tt else Err ConstraintUnsatisfiable.
Proof. reflexivity. Qed.

(** A prime field has no zero divisors, so the quadratic constraint
    [b * (b - 1) === 0] forces a bit. *)
Lemma boolean_constraint_iff (b : Fp) : boolean_constraint b = true <-> is_bit b.
Proof.
  unfold boolean_constraint, is_bit. rewrite Fp_eqb_eq. split.
  - intros E. apply (f_equal Zmod.to_Z) in E.
    rewrite Zmod.to_Z_mul, Zmod.to_Z_sub, to_Z_0, to_Z_1 in E.
    pose proof (to_Z_bound b) as Hb.
    apply Z.mod_divide in E; [|exact p_nonzero].
    apply (Z.divide_prime_mul _ _ _ prime_p) in E as [E|E];
      apply Z.mod_divide in E; try exact p_nonzero.
    + left. apply Zmod.to_Z_inj. rewrite to_Z_0.
      rewrite Z.mod_small in E; assumption.
    + right. apply Zmod.to_Z_inj. rewrite to_Z_1.
      rewrite Z.mod_mod in E by exact p_nonzero.
      destruct (Z.eq_dec (Zmod.to_Z b) 0) as [Hz|Hnz].
      * rewrite Hz in E. vm_compute in E. discriminate.
      * rewrite Z.mod_small in E; lia.
  - intros [->| ->]; reflexivity.
Qed.

(* ================================================================= *)
(** * [Num2Bits] *)

Add Ring Fp_ring : (Zmod.ring_theory p).

Lemma of_Z_add a b : Zmod.of_Z p (a + b) = (Zmod.of_Z p a + Zmod.of_Z p b)%Fp.
Proof. apply Zmod.of_Z_add. Qed.

Lemma of_Z_mul a b : Zmod.of_Z p (a * b) = (Zmod.of_Z p a * Zmod.of_Z p b)%Fp.
Proof. apply Zmod.of_Z_mul. Qed.

Lemma of_Z_to_Z (x : Fp) : Zmod.of_Z p (Zmod.to_Z x) = x.
Proof. apply Zmod.of_Z_to_Z. Qed.

(** The loop's linear combination is [lc1 + e2 * value of the bits]. *)
Lemma Num2Bits_lc_value out : forall lc1 e2,
  Num2Bits_lc out lc1 e2 = (lc1 + e2 * Zmod.of_Z p (bits_value out))%Fp.
Proof.
  induction out as [|b bs IH]; intros lc1 e2; cbn [Num2Bits_lc bits_value].
  - change (Zmod.of_Z p 0) with (0%Fp). ring.
  - rewrite IH, of_Z_add, of_Z_mul, of_Z_to_Z.
    change (Zmod.of_Z p 2) with (1 + 1)%Fp. ring.
Qed.

Lemma bits_value_bound out :
  Forall is_bit out -> 0 <= bits_value out < 2 ^ Z.of_nat (length out).
Proof.
  induction 1 as [|b bs Hb _ IH]; cbn [bits_value length].
  - simpl. lia.
  - rewrite Nat2Z.inj_succ, Z.pow_succ_r by lia.
    destruct Hb as [-> | ->]; rewrite ?to_Z_0, ?to_Z_1; lia.
Qed.

Lemma forallb_boolean out :
  forallb boolean_constraint out = true <-> Forall is_bit out.
Proof.
  rewrite List.forallb_forall, List.Forall_forall.
  split; intros Hall b Hin; apply boolean_constraint_iff, Hall, Hin.
Qed.

Lemma Num2Bits_constraints_iff n x out :
  Num2Bits_constraints n x out = true <->
  length out = n /\ Forall is_bit out /\ Zmod.of_Z p (bits_value out) = x.
Proof.
  unfold Num2Bits_constraints.
  rewrite !andb_true_iff, Nat.eqb_eq, forallb_boolean, Fp_eqb_eq, Num2Bits_lc_value.
  assert (E : (0 + 1 * Zmod.of_Z p (bits_value out))%Fp = Zmod.of_Z p (bits_value out))
    by ring.
  rewrite E. tauto.
Qed.

(** The bit the witness computation assigns is the binary digit. *)
Lemma bit_value (x : Fp) i :
  0 <= i -> Zmod.to_Z (band (shr x i) 1%Fp) = (Zmod.to_Z x / 2 ^ i) mod 2.
Proof.
  intros Hi. unfold band, shr. pose proof (to_Z_bound x) as Hx.
  assert (Hpow : 0 < 2 ^ i) by (apply Z.pow_pos_nonneg; lia).
  assert (Hsh : 0 <= Z.shiftr (Zmod.to_Z x) i < p).
  { rewrite Z.shiftr_div_pow2 by lia. split.
    - apply Z.div_pos; lia.
    - apply Z.le_lt_trans with (Zmod.to_Z x); [|lia].
      apply Z.div_le_upper_bound; [exact Hpow | nia]. }
  rewrite (to_Z_small _ Hsh), to_Z_1.
  change 1 with (Z.ones 1). rewrite Z.land_ones by lia.
  rewrite Z.shiftr_div_pow2 by lia. change (2 ^ 1) with 2.
  apply to_Z_small.
  pose proof (Z.mod_pos_bound (Zmod.to_Z x / 2 ^ i) 2 ltac:(lia)).
  pose proof p_gt_1. lia.
Qed.

Lemma bit_is_bit (x : Fp) i : 0 <= i -> is_bit (band (shr x i) 1%Fp).
Proof.
  intros Hi. pose proof (bit_value x i Hi) as E.
  pose proof (Z.mod_pos_bound (Zmod.to_Z x / 2 ^ i) 2 ltac:(lia)) as Hb.
  unfold is_bit. rewrite !Fp_eq_to_Z, to_Z_0, to_Z_1. lia.
Qed.

Lemma bits_from_length x k : forall i, length (bits_from x i k) = k.
Proof. induction k as [|k IH]; intros i; simpl; [reflexivity | now rewrite IH]. Qed.

Lemma bits_from_is_bit x k : forall i, 0 <= i -> Forall is_bit (bits_from x i k).
Proof.
  induction k as [|k IH]; intros i Hi; cbn [bits_from]; constructor.
  - apply bit_is_bit, Hi.
  - apply IH. lia.
Qed.

Lemma bits_from_value x k : forall i,
  0 <= i -> bits_value (bits_from x i k) = (Zmod.to_Z x / 2 ^ i) mod 2 ^ Z.of_nat k.
Proof.
  induction k as [|k IH]; intros i Hi; cbn [bits_from bits_value].
  - simpl. now rewrite Z.mod_1_r.
  - rewrite bit_value, IH by lia.
    rewrite Nat2Z.inj_succ, Z.pow_succ_r by lia.
    rewrite Z.rem_mul_r by (try lia; apply Z.pow_pos_nonneg; lia).
    rewrite Z.pow_add_r, Z.pow_1_r, Z.div_div by (try lia; apply Z.pow_pos_nonneg; lia).
    reflexivity.
Qed.

Lemma nth_bits_from x k n : forall i,
  (n < k)%nat -> nth n (bits_from x i k) 0%Fp = band (shr x (i + Z.of_nat n)) 1%Fp.
Proof.
  revert n. induction k as [|k IH]; intros n i Hn; [lia|].
  cbn [bits_from]. destruct n as [|n]; cbn [nth].
  - now rewrite Z.add_0_r.
  - rewrite IH by lia. f_equal. f_equal. lia.
Qed.

(** The loop never fails on a boolean check: the assigned bits are bits. *)
Lemma Num2Bits_loop_run k : forall i x lc1 e2,
  0 <= i ->
  Num2Bits_loop k i x lc1 e2
  = Ok (bits_from x i k, Num2Bits_lc (bits_from x i k) lc1 e2).
Proof.
  induction k as [|k IH]; intros i x lc1 e2 Hi; cbn [Num2Bits_loop bits_from Num2Bits_lc].
  - reflexivity.
  - pose proof (bit_is_bit x i Hi) as Hb.
    apply boolean_constraint_iff in Hb. unfold boolean_constraint in Hb.
    rewrite constrain_cases, Hb. cbn [mbind result_bind].
    rewrite IH by lia. reflexivity.
Qed.

(** What [Num2Bits(n)] does on input [x]: it succeeds, with the binary digits
    of [x], exactly when [x] fits in [n] bits. *)
Theorem Num2Bits_run n (x : Fp) :
  Num2Bits n x =
    if Zmod.to_Z x <? 2 ^ Z.of_nat n then Ok (bits_from x 0 n)
    else Err ConstraintUnsatisfiable.
Proof.
  unfold Num2Bits. rewrite Num2Bits_loop_run by lia. cbn [mbind result_bind].
  rewrite constrain_cases, Num2Bits_lc_value.
  pose proof (to_Z_bound x) as Hx.
  assert (Hpow : 0 < 2 ^ Z.of_nat n) by (apply Z.pow_pos_nonneg; lia).
  assert (Hv : Zmod.to_Z (0 + 1 * Zmod.of_Z p (bits_value (bits_from x 0 n)))%Fp
               = Zmod.to_Z x mod 2 ^ Z.of_nat n).
  { replace (0 + 1 * Zmod.of_Z p (bits_value (bits_from x 0 n)))%Fp
      with (Zmod.of_Z p (bits_value (bits_from x 0 n))) by ring.
    rewrite bits_from_value, Z.pow_0_r, Z.div_1_r by lia.
    apply to_Z_small.
    pose proof (Z.mod_pos_bound (Zmod.to_Z x) _ Hpow).
    assert (Zmod.to_Z x mod 2 ^ Z.of_nat n <= Zmod.to_Z x)
      by (apply Z.mod_le; lia).
    lia. }
  unfold Zmod.eqb. rewrite Hv.
  destruct (Zmod.to_Z x <? 2 ^ Z.of_nat n) eqn:E.
  - apply Z.ltb_lt in E. rewrite Z.mod_small by lia. rewrite Z.eqb_refl. reflexivity.
  - apply Z.ltb_ge in E.
    pose proof (Z.mod_pos_bound (Zmod.to_Z x) _ Hpow).
    destruct (Z.eqb_spec (Zmod.to_Z x mod 2 ^ Z.of_nat n) (Zmod.to_Z x)); [lia|].
    reflexivity.
Qed.

Lemma pow2_le_p n : (n <= 253)%nat -> 2 ^ Z.of_nat n < p.
Proof.
  intros Hn. apply Z.le_lt_trans with (2 ^ 253); [|apply p_bounds].
  apply Z.pow_le_mono_r; lia.
Qed.

(** Bits are determined by the value they denote. *)
Lemma bits_unique out : Forall is_bit out -> forall (x : Fp) i,
  0 <= i ->
  (Zmod.to_Z x / 2 ^ i) mod 2 ^ Z.of_nat (length out) = bits_value out ->
  bits_from x i (length out) = out.
Proof.
  induction 1 as [|b bs Hb Hbs IH]; intros x i Hi E; cbn [length bits_from].
  - reflexivity.
  - cbn [bits_value length] in E.
    rewrite Nat2Z.inj_succ, Z.pow_succ_r in E by lia.
    assert (Hpow : 0 < 2 ^ Z.of_nat (length bs)) by (apply Z.pow_pos_nonneg; lia).
    assert (Hpi : 0 < 2 ^ i) by (apply Z.pow_pos_nonneg; lia).
    rewrite Z.rem_mul_r in E by lia.
    rewrite Z.div_div in E by lia.
    replace (2 ^ i * 2) with (2 ^ (i + 1)) in E by (rewrite Z.pow_add_r; lia).
    pose proof (Z.mod_pos_bound (Zmod.to_Z x / 2 ^ i) 2 ltac:(lia)) as H2.
    assert (Hbv : Zmod.to_Z b = 0 \/ Zmod.to_Z b = 1).
    { destruct Hb as [-> | ->]; [left | right]; reflexivity. }
    f_equal.
    + apply Zmod.to_Z_inj. rewrite bit_value by lia. lia.
    + apply IH; lia.
Qed.

(** For widths below the field size the constraints of [Num2Bits] pin the
    output bits to the binary digits of the input. *)
Lemma Num2Bits_constraints_unique n (x : Fp) out :
  (n <= 253)%nat ->
  Num2Bits_constraints n x out = true <->
  Zmod.to_Z x < 2 ^ Z.of_nat n /\ out = bits_from x 0 n.
Proof.
  intros Hn. rewrite Num2Bits_constraints_iff.
  pose proof (pow2_le_p n Hn) as Hp. pose proof (to_Z_bound x) as Hx.
  split.
  - intros (Hlen & Hbits & <-).
    pose proof (bits_value_bound out Hbits) as Hv. rewrite Hlen in Hv.
    rewrite to_Z_small by lia. split; [lia|].
    rewrite <- Hlen. symmetry. apply bits_unique; [exact Hbits | lia |].
    rewrite to_Z_small, Z.pow_0_r, Z.div_1_r by lia.
    apply Z.mod_small. rewrite Hlen. lia.
  - intros (Hlt & ->). rewrite bits_from_length. split; [reflexivity|].
    split; [apply bits_from_is_bit; lia|].
    rewrite bits_from_value, Z.pow_0_r, Z.div_1_r, Z.mod_small by lia.
    apply of_Z_to_Z.
Qed.

(** C3: [Num2Bits(n)] has a satisfying assignment for input [x] exactly when
    the integer value of [x] is below [2^n]; when [x] needs more than [n]
    bits no assignment of the output bits satisfies the constraints. *)
Theorem Num2Bits_satisfiable_iff (n : nat) (x : Fp) :
  (Num2Bits_satisfiable n x <-> Zmod.to_Z x < 2 ^ Z.of_nat n)
  /\ (2 ^ Z.of_nat n <= Zmod.to_Z x ->
      forall out, Num2Bits_constraints n x out = false).
Proof.
  assert (Hiff : Num2Bits_satisfiable n x <-> Zmod.to_Z x < 2 ^ Z.of_nat n).
  { pose proof (to_Z_bound x) as Hx. split.
    - intros [out Hout]. apply Num2Bits_constraints_iff in Hout as (Hlen & Hbits & E).
      pose proof (bits_value_bound out Hbits) as Hv. rewrite Hlen in Hv.
      destruct (Z_lt_le_dec (2 ^ Z.of_nat n) p) as [Hsmall|Hbig]; [|lia].
      rewrite <- E, to_Z_small; lia.
    - intros Hlt. exists (bits_from x 0 n). apply Num2Bits_constraints_iff.
      split; [apply bits_from_length|]. split; [apply bits_from_is_bit; lia|].
      rewrite bits_from_value, Z.pow_0_r, Z.div_1_r, Z.mod_small by lia.
      apply of_Z_to_Z. }
  split; [exact Hiff|].
  intros Hge out. destruct (Num2Bits_constraints n x out) eqn:E; [|reflexivity].
  exfalso. assert (Hs : Num2Bits_satisfiable n x) by (exists out; exact E).
  apply Hiff in Hs. lia.
Qed.

(* ================================================================= *)
(** * [LessThan] and [GreaterEqThan] *)

Lemma shl_one n : (n <= 252)%nat -> Zmod.to_Z (shl 1%Fp (Z.of_nat n)) = 2 ^ Z.of_nat n.
Proof.
  intros Hn. unfold shl. rewrite to_Z_1, Z.shiftl_1_l.
  change mask with (Z.ones 254). rewrite Z.land_ones by lia.
  assert (H254 : 2 ^ Z.of_nat n < 2 ^ 254) by (apply Z.pow_lt_mono_r; lia).
  assert (Hpos : 0 < 2 ^ Z.of_nat n) by (apply Z.pow_pos_nonneg; lia).
  rewrite Z.mod_small by lia.
  apply to_Z_small. pose proof (pow2_le_p n ltac:(lia)). lia.
Qed.

(** The value handed to [Num2Bits(n+1)]: [in[0] + 2^n - in[1]] in the field. *)
Lemma comparator_sum n (a b : Fp) :
  (n <= 252)%nat ->
  Zmod.to_Z (a + shl 1%Fp (Z.of_nat n) - b)%Fp
  = (Zmod.to_Z a + 2 ^ Z.of_nat n - Zmod.to_Z b) mod p.
Proof.
  intros Hn. rewrite Zmod.to_Z_sub, Zmod.to_Z_add, shl_one by exact Hn.
  apply Zminus_mod_idemp_l.
Qed.

Lemma comparator_sum_in_range n (a b : Fp) :
  (n <= 252)%nat ->
  Zmod.to_Z a < 2 ^ Z.of_nat n -> Zmod.to_Z b < 2 ^ Z.of_nat n ->
  Zmod.to_Z (a + shl 1%Fp (Z.of_nat n) - b)%Fp
  = Zmod.to_Z a + 2 ^ Z.of_nat n - Zmod.to_Z b.
Proof.
  intros Hn Ha Hb. rewrite comparator_sum by exact Hn.
  pose proof (to_Z_bound a). pose proof (to_Z_bound b).
  pose proof (pow2_le_p (S n) ltac:(lia)) as Hp.
  rewrite Nat2Z.inj_succ, Z.pow_succ_r in Hp by lia.
  apply Z.mod_small. lia.
Qed.

(** Bit [n] of a value below [2^(n+1)]. *)
Lemma top_bit (s : Fp) n :
  Zmod.to_Z s < 2 ^ Z.of_nat (n + 1) ->
  band (shr s (Z.of_nat n)) 1%Fp
  = if 2 ^ Z.of_nat n <=? Zmod.to_Z s then 1%Fp else 0%Fp.
Proof.
  intros Hs. apply Zmod.to_Z_inj. rewrite bit_value by lia.
  pose proof (to_Z_bound s) as Hb.
  assert (Hpos : 0 < 2 ^ Z.of_nat n) by (apply Z.pow_pos_nonneg; lia).
  replace (Z.of_nat (n + 1)) with (Z.succ (Z.of_nat n)) in Hs by lia.
  rewrite Z.pow_succ_r in Hs by lia.
  destruct (2 ^ Z.of_nat n <=? Zmod.to_Z s) eqn:E.
  - apply Z.leb_le in E. rewrite to_Z_1.
    assert (H1 : Zmod.to_Z s / 2 ^ Z.of_nat n = 1).
    { symmetry. apply Z.div_unique with (r := Zmod.to_Z s - 2 ^ Z.of_nat n); lia. }
    rewrite H1. reflexivity.
  - apply Z.leb_gt in E. rewrite to_Z_0.
    rewrite Z.div_small by lia. reflexivity.
Qed.

(** What [LessThan(n)] computes, for any two field elements. *)
Lemma LessThan_run n (a b : Fp) :
  (n <= 252)%nat ->
  LessThan n a b =
    let s := (a + shl 1%Fp (Z.of_nat n) - b)%Fp in
    if Zmod.to_Z s <? 2 ^ Z.of_nat (n + 1) then
      Ok {| lt_in0 := a; lt_in1 := b;
            lt_out := (1 - (if 2 ^ Z.of_nat n <=? Zmod.to_Z s then 1 else 0))%Fp;
            n2b_in := s; n2b_out := bits_from s 0 (n + 1) |}
    else Err ConstraintUnsatisfiable.
Proof.
  intros Hn. unfold LessThan.
  destruct (Nat.leb_spec n 252) as [_|Hbad]; [|lia].
  cbv zeta. rewrite Num2Bits_run.
  destruct (Zmod.to_Z (a + shl 1%Fp (Z.of_nat n) - b)%Fp <? 2 ^ Z.of_nat (n + 1)) eqn:E;
    cbn [mbind result_bind]; [|reflexivity].
  apply Z.ltb_lt in E.
  rewrite nth_bits_from by lia. rewrite Z.add_0_l, top_bit by exact E.
  reflexivity.
Qed.

(** The assignments satisfying [LessThan(n)] are the ones the witness
    computation produces. *)
Lemma LessThan_constraints_iff n (s : LessThan_signals) :
  LessThan_constraints n s = true <->
  (n <= 252)%nat /\ LessThan n (lt_in0 s) (lt_in1 s) = Ok s.
Proof.
  unfold LessThan_constraints. rewrite !andb_true_iff, Nat.leb_le, !Fp_eqb_eq.
  split.
  - intros (((Hn & Hin) & Hbits) & Hout). split; [exact Hn|].
    apply Num2Bits_constraints_unique in Hbits as (Hlt & Hb); [|lia].
    rewrite LessThan_run by exact Hn. cbv zeta. rewrite <- Hin.
    apply Z.ltb_lt in Hlt. rewrite Hlt.
    destruct s as [i0 i1 o ni no]; cbn in *. subst no. f_equal. f_equal.
    rewrite Hout, nth_bits_from, Z.add_0_l, top_bit by (try lia; apply Z.ltb_lt, Hlt).
    reflexivity.
  - intros (Hn & Hrun). rewrite LessThan_run in Hrun by exact Hn. cbv zeta in Hrun.
    destruct (Zmod.to_Z (lt_in0 s + shl 1%Fp (Z.of_nat n) - lt_in1 s)%Fp
              <? 2 ^ Z.of_nat (n + 1)) eqn:E; [|discriminate].
    apply Z.ltb_lt in E. injection Hrun as <-. cbn.
    repeat split; try assumption.
    + apply Num2Bits_constraints_unique; [lia|]. split; [exact E | reflexivity].
    + rewrite nth_bits_from, Z.add_0_l, top_bit by (try lia; exact E). reflexivity.
Qed.

Lemma GreaterEqThan_run n (a b : Fp) :
  GreaterEqThan n a b =
    match LessThan n a b with
    | Ok lt => Ok {| ge_in0 := a; ge_in1 := b;
                     ge_out := (1 - lt_out lt)%Fp; ge_lt := lt |}
    | Err e => Err e
    end.
Proof. reflexivity. Qed.

Lemma LessThan_inputs n a b s :
  LessThan n a b = Ok s -> lt_in0 s = a /\ lt_in1 s = b.
Proof.
  unfold LessThan. destruct (n <=? 252)%nat; [|discriminate].
  cbv zeta. destruct (Num2Bits _ _); cbn [mbind result_bind]; [|discriminate].
  intros [= <-]. split; reflexivity.
Qed.

Lemma GreaterEqThan_constraints_iff n (s : GreaterEqThan_signals) :
  GreaterEqThan_constraints n s = true <->
  (n <= 252)%nat /\ GreaterEqThan n (ge_in0 s) (ge_in1 s) = Ok s.
Proof.
  unfold GreaterEqThan_constraints.
  rewrite !andb_true_iff, !Fp_eqb_eq, LessThan_constraints_iff, GreaterEqThan_run.
  split.
  - intros (((H0 & H1) & Hn & Hlt) & Hout). split; [exact Hn|].
    rewrite <- H0, <- H1, Hlt. destruct s; cbn in *. subst. reflexivity.
  - intros (Hn & Hrun).
    destruct (LessThan n (ge_in0 s) (ge_in1 s)) as [lt|] eqn:E; [|discriminate].
    destruct (LessThan_inputs _ _ _ _ E) as [H0 H1].
    injection Hrun as <-. cbn. rewrite H0, H1, E. tauto.
Qed.

Lemma Fp_one_neq_zero : (1 : Fp)%Fp <> 0%Fp.
Proof. intros E. apply (f_equal Zmod.to_Z) in E. discriminate E. Qed.

Lemma Fp_sub_1_1 : (1 - 1)%Fp = 0%Fp.
Proof. reflexivity. Qed.

Lemma Fp_sub_1_0 : (1 - 0)%Fp = 1%Fp.
Proof. reflexivity. Qed.

Lemma LessThan_satisfiable_iff n a b out :
  LessThan_satisfiable n a b out <->
  (n <= 252)%nat /\ exists s, LessThan n a b = Ok s /\ lt_out s = out.
Proof.
  unfold LessThan_satisfiable. split.
  - intros (s & <- & <- & <- & Hc). apply LessThan_constraints_iff in Hc as [Hn Hrun].
    split; [exact Hn|]. exists s. split; [exact Hrun | reflexivity].
  - intros (Hn & s & Hrun & <-). exists s.
    destruct (LessThan_inputs _ _ _ _ Hrun) as [H0 H1].
    repeat split; try assumption.
    apply LessThan_constraints_iff. rewrite H0, H1. split; assumption.
Qed.

Lemma GreaterEqThan_inputs n a b s :
  GreaterEqThan n a b = Ok s -> ge_in0 s = a /\ ge_in1 s = b.
Proof.
  rewrite GreaterEqThan_run. destruct (LessThan n a b); [|discriminate].
  intros [= <-]. split; reflexivity.
Qed.

Lemma GreaterEqThan_satisfiable_iff n a b out :
  GreaterEqThan_satisfiable n a b out <->
  (n <= 252)%nat /\ exists s, GreaterEqThan n a b = Ok s /\ ge_out s = out.
Proof.
  unfold GreaterEqThan_satisfiable. split.
  - intros (s & <- & <- & <- & Hc). apply GreaterEqThan_constraints_iff in Hc as [Hn Hrun].
    split; [exact Hn|]. exists s. split; [exact Hrun | reflexivity].
  - intros (Hn & s & Hrun & <-). exists s.
    destruct (GreaterEqThan_inputs _ _ _ _ Hrun) as [H0 H1].
    repeat split; try assumption.
    apply GreaterEqThan_constraints_iff. rewrite H0, H1. split; assumption.
Qed.

(** The comparators on inputs below [2^n]. *)
Lemma comparator_spec (n : nat) (a b : Fp) :
  (n <= 252)%nat ->
  Zmod.to_Z a < 2 ^ Z.of_nat n -> Zmod.to_Z b < 2 ^ Z.of_nat n ->
  exists lt ge,
    LessThan n a b = Ok lt /\ GreaterEqThan n a b = Ok ge
    /\ Zmod.to_Z (n2b_in lt) = Zmod.to_Z a + 2 ^ Z.of_nat n - Zmod.to_Z b
    /\ length (n2b_out lt) = (n + 1)%nat
    /\ Forall is_bit (n2b_out lt)
    /\ bits_value (n2b_out lt) = Zmod.to_Z (n2b_in lt)
    /\ lt_out lt = (1 - nth n (n2b_out lt) 0)%Fp
    /\ (lt_out lt = 1%Fp <-> Zmod.to_Z a < Zmod.to_Z b)
    /\ (lt_out lt = 0%Fp <-> Zmod.to_Z b <= Zmod.to_Z a)
    /\ (a = b -> lt_out lt = 0%Fp)
    /\ ge_out ge = (1 - lt_out lt)%Fp
    /\ (ge_out ge = 1%Fp <-> Zmod.to_Z b <= Zmod.to_Z a)
    /\ (ge_out ge = 0%Fp <-> Zmod.to_Z a < Zmod.to_Z b)
    /\ (forall out, LessThan_satisfiable n a b out <-> out = lt_out lt)
    /\ (forall out, GreaterEqThan_satisfiable n a b out <-> out = ge_out ge).
Proof.
  intros Hn Ha Hb.
  pose proof (comparator_sum_in_range n a b Hn Ha Hb) as Hs.
  pose proof (to_Z_bound a) as Ha0. pose proof (to_Z_bound b) as Hb0.
  assert (Hpow : 0 < 2 ^ Z.of_nat n) by (apply Z.pow_pos_nonneg; lia).
  assert (Hlt : (Zmod.to_Z (a + shl 1%Fp (Z.of_nat n) - b)%Fp <? 2 ^ Z.of_nat (n + 1)) = true).
  { apply Z.ltb_lt. rewrite Hs.
    replace (Z.of_nat (n + 1)) with (Z.succ (Z.of_nat n)) by lia.
    rewrite Z.pow_succ_r by lia. lia. }
  pose proof (LessThan_run n a b Hn) as Hrun. cbv zeta in Hrun. rewrite Hlt in Hrun.
  pose proof (GreaterEqThan_run n a b) as Hge. rewrite Hrun in Hge.
  eexists. eexists. split; [exact Hrun|]. split; [exact Hge|].
  cbn [n2b_in n2b_out lt_out ge_out].
  apply Z.ltb_lt in Hlt.
  assert (Hout : (1 - (if 2 ^ Z.of_nat n <=? Zmod.to_Z (a + shl 1%Fp (Z.of_nat n) - b)%Fp
                       then 1 else 0))%Fp
                 = if Zmod.to_Z a <? Zmod.to_Z b then 1%Fp else 0%Fp).
  { rewrite Hs.
    destruct (Z.leb_spec (2 ^ Z.of_nat n) (Zmod.to_Z a + 2 ^ Z.of_nat n - Zmod.to_Z b));
      destruct (Z.ltb_spec (Zmod.to_Z a) (Zmod.to_Z b)); try lia; reflexivity. }
  rewrite Hout.
  split; [exact Hs|].
  split; [apply bits_from_length|].
  split; [apply bits_from_is_bit; lia|].
  split.
  { rewrite bits_from_value, Z.pow_0_r, Z.div_1_r by lia. apply Z.mod_small.
    pose proof (to_Z_bound (a + shl 1%Fp (Z.of_nat n) - b)%Fp). lia. }
  split.
  { rewrite <- Hout, nth_bits_from, Z.add_0_l, top_bit by (try lia; exact Hlt).
    reflexivity. }
  pose proof Fp_one_neq_zero as H10.
  assert (Hlt1 : (if Zmod.to_Z a <? Zmod.to_Z b then 1%Fp else 0%Fp) = 1%Fp
                 <-> Zmod.to_Z a < Zmod.to_Z b).
  { destruct (Z.ltb_spec (Zmod.to_Z a) (Zmod.to_Z b)); split; intros; try lia;
      try reflexivity; congruence. }
  assert (Hlt0 : (if Zmod.to_Z a <? Zmod.to_Z b then 1%Fp else 0%Fp) = 0%Fp
                 <-> Zmod.to_Z b <= Zmod.to_Z a).
  { destruct (Z.ltb_spec (Zmod.to_Z a) (Zmod.to_Z b)); split; intros; try lia;
      try reflexivity; congruence. }
  split; [exact Hlt1|]. split; [exact Hlt0|].
  split; [intros ->; apply Hlt0; lia|].
  split; [reflexivity|].
  split.
  { destruct (Z.ltb_spec (Zmod.to_Z a) (Zmod.to_Z b));
      rewrite ?Fp_sub_1_1, ?Fp_sub_1_0; split; intros; try lia; try reflexivity;
      congruence. }
  split.
  { destruct (Z.ltb_spec (Zmod.to_Z a) (Zmod.to_Z b));
      rewrite ?Fp_sub_1_1, ?Fp_sub_1_0; split; intros; try lia; try reflexivity;
      congruence. }
  split.
  - intros out. rewrite LessThan_satisfiable_iff, Hrun, Hout. split.
    + intros (_ & s & [= <-] & <-). reflexivity.
    + intros ->. split; [exact Hn|]. eexists. split; reflexivity.
  - intros out. rewrite GreaterEqThan_satisfiable_iff, Hge, Hout. split.
    + intros (_ & s & [= <-] & <-). reflexivity.
    + intros ->. split; [exact Hn|]. eexists. split; reflexivity.
Qed.

(** C2: for [a], [b] below [2^n] with [n <= 252], [LessThan(n)] decomposes
    [a + 2^n - b] into [n+1] bits and outputs [1 - bit_n], which is 1 exactly
    when [a < b] (so 0 when [a = b]); [GreaterEqThan(n)] outputs
    [1 - LessThan(a, b)], which is 1 exactly when [a >= b].  The outputs are
    the only ones the constraints admit. *)
Theorem comparator_correct (n : nat) (a b : Fp) :
  (n <= 252)%nat ->
  Zmod.to_Z a < 2 ^ Z.of_nat n -> Zmod.to_Z b < 2 ^ Z.of_nat n ->
  exists lt ge,
    LessThan n a b = Ok lt /\ GreaterEqThan n a b = Ok ge
    /\ Zmod.to_Z (n2b_in lt) = Zmod.to_Z a + 2 ^ Z.of_nat n - Zmod.to_Z b
    /\ length (n2b_out lt) = (n + 1)%nat
    /\ Forall is_bit (n2b_out lt)
    /\ bits_value (n2b_out lt) = Zmod.to_Z (n2b_in lt)
    /\ lt_out lt = (1 - nth n (n2b_out lt) 0)%Fp
    /\ (lt_out lt = 1%Fp <-> Zmod.to_Z a < Zmod.to_Z b)
    /\ (lt_out lt = 0%Fp <-> Zmod.to_Z b <= Zmod.to_Z a)
    /\ (a = b -> lt_out lt = 0%Fp)
    /\ ge_out ge = (1 - lt_out lt)%Fp
    /\ (ge_out ge = 1%Fp <-> Zmod.to_Z b <= Zmod.to_Z a)
    /\ (ge_out ge = 0%Fp <-> Zmod.to_Z a < Zmod.to_Z b)
    /\ (forall out, LessThan_satisfiable n a b out <-> out = lt_out lt)
    /\ (forall out, GreaterEqThan_satisfiable n a b out <-> out = ge_out ge).
Proof. exact (comparator_spec n a b). Qed.

Lemma comparator_correct_witness :
  (8 <= 252)%nat
  /\ Zmod.to_Z (normalize 3) < 2 ^ Z.of_nat 8
  /\ Zmod.to_Z (normalize 5) < 2 ^ Z.of_nat 8
  /\ exists lt ge,
       LessThan 8 (normalize 3) (normalize 5) = Ok lt
       /\ GreaterEqThan 8 (normalize 3) (normalize 5) = Ok ge
       /\ lt_out lt = 1%Fp /\ ge_out ge = 0%Fp.
Proof.
  assert (H1 : (8 <= 252)%nat) by lia.
  assert (H2 : Zmod.to_Z (normalize 3) < 2 ^ Z.of_nat 8) by reflexivity.
  assert (H3 : Zmod.to_Z (normalize 5) < 2 ^ Z.of_nat 8) by reflexivity.
  split; [exact H1|]. split; [exact H2|]. split; [exact H3|].
  destruct (comparator_correct 8 (normalize 3) (normalize 5) H1 H2 H3)
    as (lt & ge & Hlt & Hge & _ & _ & _ & _ & _ & Hlt1 & _ & _ & _ & _ & Hge0 & _).
  exists lt, ge. split; [exact Hlt|]. split; [exact Hge|].
  split; [apply Hlt1 | apply Hge0]; reflexivity.
Defined.

(* ================================================================= *)
(** * [ComputeThreshold] *)

Lemma ComputeThreshold_run (v T : Fp) :
  ComputeThreshold v T =
    match LessThan 252 v T with
    | Ok rc =>
        if (lt_out rc =? 1)%Fp then
          Ok {| privateCompute := v; threshold := T; ct_valid := lt_out rc;
                difference := (T - v)%Fp; rangeCheck := rc |}
        else Err ConstraintUnsatisfiable
    | Err e => Err e
    end.
Proof.
  unfold ComputeThreshold. cbv zeta.
  destruct (LessThan 252 v T) as [rc|e]; cbn [mbind result_bind]; [|reflexivity].
  rewrite constrain_cases. destruct (lt_out rc =? 1)%Fp; reflexivity.
Qed.

Lemma ComputeThreshold_inputs v T s :
  ComputeThreshold v T = Ok s ->
  privateCompute s = v /\ threshold s = T /\ ct_valid s = 1%Fp.
Proof.
  rewrite ComputeThreshold_run. destruct (LessThan 252 v T) as [rc|]; [|discriminate].
  destruct (lt_out rc =? 1)%Fp eqn:E; [|discriminate].
  apply Fp_eqb_eq in E. intros [= <-]. cbn. auto.
Qed.

(** The assignments satisfying the circuit are the ones its witness
    computation produces. *)
Lemma ComputeThreshold_constraints_iff (s : ComputeThreshold_signals) :
  ComputeThreshold_constraints s = true <->
  ComputeThreshold (privateCompute s) (threshold s) = Ok s.
Proof.
  unfold ComputeThreshold_constraints.
  rewrite !andb_true_iff, !Fp_eqb_eq, LessThan_constraints_iff, ComputeThreshold_run.
  split.
  - intros (((((Hd & H0) & H1) & _ & Hlt) & Hv) & Hv1).
    rewrite <- H0, <- H1, Hlt, <- Hv, Hv1, Zmod.eqb_refl.
    destruct s as [pc th va di rc];
      cbn [privateCompute threshold ct_valid difference rangeCheck] in *.
    subst. rewrite Hv1. reflexivity.
  - intros Hrun.
    destruct (LessThan 252 (privateCompute s) (threshold s)) as [rc|] eqn:E;
      [|discriminate].
    destruct (lt_out rc =? 1)%Fp eqn:E1; [|discriminate].
    apply Fp_eqb_eq in E1. destruct (LessThan_inputs _ _ _ _ E) as [H0 H1].
    injection Hrun as <-.
    cbn [privateCompute threshold ct_valid difference rangeCheck].
    rewrite H0, H1, E. repeat split; auto.
Qed.

Lemma ComputeThreshold_satisfiable_iff (v T : Fp) :
  ComputeThreshold_satisfiable v T <-> exists s, ComputeThreshold v T = Ok s.
Proof.
  unfold ComputeThreshold_satisfiable. split.
  - intros (s & <- & <- & Hc). exists s. apply ComputeThreshold_constraints_iff, Hc.
  - intros (s & Hrun). exists s.
    destruct (ComputeThreshold_inputs _ _ _ Hrun) as (Hv & HT & _).
    repeat split; try assumption.
    apply ComputeThreshold_constraints_iff. rewrite Hv, HT. exact Hrun.
Qed.

(** Generation succeeds exactly when [privateCompute + 2^252 - threshold],
    reduced modulo [p], is below [2^252]. *)
Lemma ComputeThreshold_ok_iff (v T : Fp) :
  is_ok (ComputeThreshold v T) = true <->
  (Zmod.to_Z v + 2 ^ 252 - Zmod.to_Z T) mod p < 2 ^ 252.
Proof.
  rewrite ComputeThreshold_run, LessThan_run by lia. cbv zeta.
  pose proof (comparator_sum 252 v T ltac:(lia)) as Hs.
  change (Z.of_nat 252) with 252 in Hs |- *. rewrite Hs.
  change (Z.of_nat (252 + 1)) with 253.
  generalize ((Zmod.to_Z v + 2 ^ 252 - Zmod.to_Z T) mod p). intros t.
  assert (E : 2 ^ 253 = 2 * 2 ^ 252) by reflexivity.
  assert (Hpos : 0 < 2 ^ 252) by reflexivity.
  destruct (Z.ltb_spec t (2 ^ 253)) as [H253|H253].
  - cbn [lt_out]. destruct (Z.leb_spec (2 ^ 252) t) as [H252|H252].
    + rewrite Fp_sub_1_1. change (0 =? 1)%Fp with false. cbn [is_ok].
      split; [discriminate|lia].
    + rewrite Fp_sub_1_0. change (1 =? 1)%Fp with true. cbn [is_ok].
      split; [lia|reflexivity].
  - cbn [is_ok]. split; [discriminate|lia].
Qed.

Lemma ComputeThreshold_err (v T : Fp) :
  is_ok (ComputeThreshold v T) = false ->
  ComputeThreshold v T = Err ConstraintUnsatisfiable.
Proof.
  rewrite ComputeThreshold_run, LessThan_run by lia. cbv zeta.
  destruct (_ <? _); [|reflexivity]. cbn [lt_out].
  destruct (_ =? _)%Fp; [discriminate | reflexivity].
Qed.

(** Within the comparator's range the circuit decides [privateCompute <
    threshold]. *)
Lemma ComputeThreshold_in_range (v T : Fp) :
  Zmod.to_Z v < 2 ^ 252 -> Zmod.to_Z T < 2 ^ 252 ->
  (is_ok (ComputeThreshold v T) = true <-> Zmod.to_Z v < Zmod.to_Z T).
Proof.
  intros Hv HT. rewrite ComputeThreshold_ok_iff.
  pose proof (to_Z_bound v). pose proof (to_Z_bound T).
  pose proof (pow2_le_p 253 ltac:(lia)) as Hp. change (Z.of_nat 253) with 253 in Hp.
  assert (E : 2 ^ 253 = 2 * 2 ^ 252) by reflexivity.
  rewrite Z.mod_small by lia. lia.
Qed.

(* ================================================================= *)
(** * The flag-aggregation circuits *)

Lemma constrain_boolean_run fl :
  constrain_boolean fl =
    if forallb boolean_constraint fl then Ok tt else Err ConstraintUnsatisfiable.
Proof.
  induction fl as [|f fl IH]; cbn [constrain_boolean forallb]; [reflexivity|].
  rewrite constrain_cases. fold (boolean_constraint f).
  destruct (boolean_constraint f); cbn [mbind result_bind andb]; [exact IH | reflexivity].
Qed.

Lemma sums_constraints_iff rest : forall prev sums,
  sums_constraints prev rest sums = true <-> sums = running_sums prev rest.
Proof.
  induction rest as [|f rest IH]; intros prev [|s sums]; cbn [sums_constraints running_sums];
    try (split; [discriminate | discriminate]); try (split; reflexivity).
  rewrite andb_true_iff, Fp_eqb_eq, IH. split.
  - intros [-> ->]. reflexivity.
  - intros [= -> ->]. split; reflexivity.
Qed.

(** The last prefix sum is the sum of all flags. *)
Lemma last_running_sum rest : forall prev,
  nth (length rest) (prev :: running_sums prev rest) 0%Fp
  = (prev + Zmod.of_Z p (flag_sum rest))%Fp.
Proof.
  induction rest as [|f rest IH]; intros prev; cbn [length running_sums flag_sum fold_right].
  - cbn [nth]. change (Zmod.of_Z p 0) with 0%Fp. ring.
  - change (nth (S (length rest)) (prev :: (prev + f)%Fp :: running_sums (prev + f)%Fp rest) 0%Fp)
      with (nth (length rest) ((prev + f)%Fp :: running_sums (prev + f)%Fp rest) 0%Fp).
    rewrite IH. fold (flag_sum rest). rewrite of_Z_add, of_Z_to_Z. ring.
Qed.

Lemma total_sum f0 rest :
  nth (length (f0 :: rest) - 1) (f0 :: running_sums f0 rest) 0%Fp
  = Zmod.of_Z p (flag_sum (f0 :: rest)).
Proof.
  cbn [length]. replace (S (length rest) - 1)%nat with (length rest) by lia.
  rewrite last_running_sum. cbn [flag_sum fold_right]. fold (flag_sum rest).
  rewrite of_Z_add, of_Z_to_Z. reflexivity.
Qed.

Lemma flag_sum_bits fl :
  Forall is_bit fl -> flag_sum fl = count_ones fl /\ 0 <= flag_sum fl <= Z.of_nat (length fl).
Proof.
  unfold count_ones.
  induction 1 as [|f fl Hf _ IH]; cbn [flag_sum fold_right List.filter length].
  - split; simpl; lia.
  - fold (flag_sum fl). destruct IH as [IH1 IH2].
    destruct Hf as [-> | ->].
    + change (0 =? 1)%Fp with false. rewrite to_Z_0. cbn iota. lia.
    + change (1 =? 1)%Fp with true. rewrite to_Z_1. cbn iota. cbn [length]. lia.
Qed.

Lemma FlagAggregation_run N fl k :
  FlagAggregation N fl k =
    if Nat.eqb (length fl) N then
      if forallb boolean_constraint fl then
        match fl with
        | [] => Err TemplateAssert
        | f0 :: rest =>
            match GreaterEqThan 8 (Zmod.of_Z p (flag_sum fl)) k with
            | Ok chk =>
                if (ge_out chk =? 1)%Fp then
                  Ok {| flags := fl; minimum := k; fa_valid := ge_out chk;
                        sums := f0 :: running_sums f0 rest; check := chk |}
                else Err ConstraintUnsatisfiable
            | Err e => Err e
            end
        end
      else Err ConstraintUnsatisfiable
    else Err InputShape.
Proof.
  unfold FlagAggregation. destruct (Nat.eqb_spec (length fl) N) as [<-|]; [|reflexivity].
  rewrite constrain_boolean_run.
  destruct (forallb boolean_constraint fl); cbn [mbind result_bind]; [|reflexivity].
  destruct fl as [|f0 rest]; [reflexivity|]. cbv zeta.
  rewrite total_sum.
  destruct (GreaterEqThan 8 _ k) as [chk|]; cbn [mbind result_bind]; [|reflexivity].
  rewrite constrain_cases. destruct (ge_out chk =? 1)%Fp; reflexivity.
Qed.

Lemma FlagAggregation_inputs N fl k s :
  FlagAggregation N fl k = Ok s ->
  flags s = fl /\ minimum s = k /\ fa_valid s = 1%Fp /\ ge_out (check s) = 1%Fp
  /\ exists f0 rest, fl = f0 :: rest /\ sums s = f0 :: running_sums f0 rest
     /\ GreaterEqThan 8 (Zmod.of_Z p (flag_sum fl)) k = Ok (check s).
Proof.
  rewrite FlagAggregation_run.
  destruct (Nat.eqb (length fl) N); [|discriminate].
  destruct (forallb boolean_constraint fl); [|discriminate].
  destruct fl as [|f0 rest]; [discriminate|].
  destruct (GreaterEqThan 8 _ k) as [chk|] eqn:E; [|discriminate].
  destruct (ge_out chk =? 1)%Fp eqn:E1; [|discriminate].
  apply Fp_eqb_eq in E1. intros [= <-]. cbn [flags minimum fa_valid sums check].
  repeat split; auto. exists f0, rest. auto.
Qed.

(** The assignments satisfying the circuit are the ones its witness
    computation produces. *)
Lemma FlagAggregation_constraints_iff N (s : FlagAggregation_signals) :
  FlagAggregation_constraints N s = true <->
  FlagAggregation N (flags s) (minimum s) = Ok s.
Proof.
  split.
  - unfold FlagAggregation_constraints.
    rewrite !andb_true_iff, !Fp_eqb_eq, Nat.eqb_eq, GreaterEqThan_constraints_iff.
    intros (((((((HN & Hb) & Hs) & H0) & H1) & _ & Hge) & Hv) & Hv1).
    rewrite FlagAggregation_run, HN, Nat.eqb_refl, Hb.
    destruct s as [fl k va su chk]; cbn [flags minimum fa_valid sums check] in *.
    destruct fl as [|f0 rest]; [discriminate|].
    destruct su as [|s0 su']; [discriminate|].
    apply andb_true_iff in Hs as [Hs0 Hs]. apply Fp_eqb_eq in Hs0.
    apply sums_constraints_iff in Hs. subst s0 su'.
    rewrite <- HN, total_sum in H0.
    rewrite <- H0, <- H1, Hge, <- Hv, Hv1, Zmod.eqb_refl. reflexivity.
  - intros Hrun.
    destruct (FlagAggregation_inputs _ _ _ _ Hrun)
      as (Hf & Hk & Hv & Hvo & f0 & rest & Hfl & Hsums & Hge).
    rewrite FlagAggregation_run in Hrun.
    destruct (Nat.eqb_spec (length (flags s)) N) as [HN|]; [|discriminate].
    destruct (forallb boolean_constraint (flags s)) eqn:Hb; [|discriminate].
    unfold FlagAggregation_constraints.
    rewrite HN, Nat.eqb_refl, Hb, Hfl, Hsums, Zmod.eqb_refl.
    assert (Hsc : sums_constraints f0 rest (running_sums f0 rest) = true)
      by (apply sums_constraints_iff; reflexivity).
    rewrite Hsc.
    destruct (GreaterEqThan_inputs _ _ _ _ Hge) as [H0 H1].
    assert (Htot : nth (N - 1) (f0 :: running_sums f0 rest) 0%Fp
                   = Zmod.of_Z p (flag_sum (flags s))).
    { rewrite <- HN, Hfl. apply total_sum. }
    rewrite Htot, H0, H1, !Zmod.eqb_refl.
    assert (Hgc : GreaterEqThan_constraints 8 (check s) = true).
    { apply GreaterEqThan_constraints_iff. rewrite H0, H1. split; [lia | exact Hge]. }
    rewrite Hgc.
    rewrite Hv, Hvo. reflexivity.
Qed.

Lemma FlagAggregation_satisfiable_iff N fl k :
  FlagAggregation_satisfiable N fl k <-> exists s, FlagAggregation N fl k = Ok s.
Proof.
  unfold FlagAggregation_satisfiable. split.
  - intros (s & <- & <- & Hc). exists s. apply FlagAggregation_constraints_iff, Hc.
  - intros (s & Hrun). exists s.
    destruct (FlagAggregation_inputs _ _ _ _ Hrun) as (Hf & Hk & _).
    repeat split; try assumption.
    apply FlagAggregation_constraints_iff. rewrite Hf, Hk. exact Hrun.
Qed.

Lemma is_ok_iff {A} (r : result A) : is_ok r = true <-> exists a, r = Ok a.
Proof.
  destruct r as [a|e]; cbn [is_ok]; split; try discriminate.
  - intros _. exists a. reflexivity.
  - reflexivity.
  - intros [a Ha]. discriminate.
Qed.

(** The comparator of the aggregation circuits on a flag sum and a minimum
    that are both at most 255: it accepts exactly when the minimum does not
    exceed the sum. *)
Lemma GreaterEqThan8_small (a k : Fp) :
  Zmod.to_Z a <= 255 -> Zmod.to_Z k <= 255 ->
  exists chk, GreaterEqThan 8 a k = Ok chk
              /\ (ge_out chk = 1%Fp <-> Zmod.to_Z k <= Zmod.to_Z a).
Proof.
  intros Ha Hk.
  destruct (comparator_spec 8 a k ltac:(lia)) as (lt & ge & _ & Hge & _ & _ & _ & _ & _ & _ & _ & _ & _ & Hge1 & _).
  - change (2 ^ Z.of_nat 8) with 256. lia.
  - change (2 ^ Z.of_nat 8) with 256. lia.
  - exists ge. split; assumption.
Qed.

Lemma FlagAggregation_small N fl k :
  (1 <= N <= 255)%nat -> length fl = N -> Zmod.to_Z k <= Z.of_nat N ->
  (is_ok (FlagAggregation N fl k) = true
   <-> Forall is_bit fl /\ Zmod.to_Z k <= count_ones fl).
Proof.
  intros HN Hlen Hk. rewrite FlagAggregation_run, Hlen, Nat.eqb_refl.
  destruct (forallb boolean_constraint fl) eqn:Hb.
  - apply forallb_boolean in Hb.
    destruct (flag_sum_bits fl Hb) as [Hcnt Hrange]. rewrite Hlen in Hrange.
    destruct fl as [|f0 rest]; [cbn [length] in Hlen; lia|].
    assert (Hsum : Zmod.to_Z (Zmod.of_Z p (flag_sum (f0 :: rest))) = flag_sum (f0 :: rest)).
    { apply to_Z_small. pose proof (pow2_le_p 8 ltac:(lia)) as Hp.
      change (2 ^ Z.of_nat 8) with 256 in Hp. lia. }
    destruct (GreaterEqThan8_small (Zmod.of_Z p (flag_sum (f0 :: rest))) k)
      as (chk & Hge & Hout); [lia | lia |].
    rewrite Hge, Hsum, Hcnt in *.
    destruct (ge_out chk =? 1)%Fp eqn:E; cbn [is_ok].
    + apply Fp_eqb_eq in E. split; [|reflexivity]. intros _. split; [exact Hb|].
      apply Hout, E.
    + split; [discriminate|]. intros [_ Hle]. apply Hout in Hle.
      rewrite Hle, Zmod.eqb_refl in E. discriminate.
  - cbn [is_ok]. split; [discriminate|]. intros [Hbits _].
    apply forallb_boolean in Hbits. congruence.
Qed.

(** C4: the aggregation circuits ([EvaluationAttestation(5)],
    [PolicyCompliance(8)]) with a public minimum [k <= N]: every flag is
    boolean-constrained, the prefix sums are [s_0 = f_0], [s_i = s_(i-1) +
    f_i], the last sum and [k] enter a [GreaterEqThan(8)] whose output is
    [valid], constrained to 1; so the constraints are satisfiable for given
    flags exactly when every flag is 0 or 1 and at least [k] flags are 1. *)
Theorem aggregation_correct (N : nat) (fl : list Fp) (k : Fp) :
  (N = 5 \/ N = 8)%nat -> length fl = N -> Zmod.to_Z k <= Z.of_nat N ->
  (FlagAggregation_satisfiable N fl k
   <-> Forall is_bit fl /\ Zmod.to_Z k <= count_ones fl)
  /\ (is_ok (FlagAggregation N fl k) = true
      <-> Forall is_bit fl /\ Zmod.to_Z k <= count_ones fl)
  /\ (forall s, FlagAggregation_constraints N s = true ->
        flags s = fl -> minimum s = k ->
        Forall is_bit (flags s)
        /\ (exists f0 rest, flags s = f0 :: rest
                            /\ sums s = f0 :: running_sums f0 rest)
        /\ ge_in0 (check s) = nth (N - 1) (sums s) 0%Fp
        /\ Zmod.to_Z (ge_in0 (check s)) = count_ones fl
        /\ ge_in1 (check s) = k
        /\ GreaterEqThan_constraints 8 (check s) = true
        /\ fa_valid s = ge_out (check s)
        /\ fa_valid s = 1%Fp).
Proof.
  intros HN Hlen Hk.
  assert (HN' : (1 <= N <= 255)%nat) by lia.
  pose proof (FlagAggregation_small N fl k HN' Hlen Hk) as Hok.
  split; [|split; [exact Hok|]].
  - rewrite FlagAggregation_satisfiable_iff, <- is_ok_iff. exact Hok.
  - intros s Hc Hf Hm.
    pose proof Hc as Hrun. apply FlagAggregation_constraints_iff in Hrun.
    rewrite Hf, Hm in Hrun.
    assert (Hok' : is_ok (FlagAggregation N fl k) = true) by (rewrite Hrun; reflexivity).
    apply Hok in Hok' as [Hbits Hle].
    destruct (FlagAggregation_inputs _ _ _ _ Hrun)
      as (_ & _ & Hv & Hvo & f0 & rest & Hfl & Hsums & Hge).
    destruct (GreaterEqThan_inputs _ _ _ _ Hge) as [H0 H1].
    destruct (flag_sum_bits fl Hbits) as [Hcnt Hrange].
    split; [rewrite Hf; exact Hbits|].
    split; [exists f0, rest; rewrite Hf; split; assumption|].
    split.
    { rewrite H0, Hsums, <- Hlen, Hfl. symmetry. apply total_sum. }
    split.
    { rewrite H0, <- Hcnt. apply to_Z_small.
      pose proof (pow2_le_p 8 ltac:(lia)) as Hp.
      change (2 ^ Z.of_nat 8) with 256 in Hp. lia. }
    split; [exact H1|].
    split.
    { apply GreaterEqThan_constraints_iff. rewrite H0, H1. split; [lia | exact Hge]. }
    split; congruence.
Qed.

Lemma aggregation_correct_witness :
  let fl := map normalize [1; 1; 1; 0; 1] in
  (5 = 5 \/ 5 = 8)%nat /\ length fl = 5%nat /\ Zmod.to_Z (normalize 4) <= Z.of_nat 5
  /\ FlagAggregation_satisfiable 5 fl (normalize 4).
Proof.
  assert (H1 : (5 = 5 \/ 5 = 8)%nat) by (left; reflexivity).
  assert (H2 : length (map normalize [1; 1; 1; 0; 1]) = 5%nat) by reflexivity.
  assert (H3 : Zmod.to_Z (normalize 4) <= Z.of_nat 5) by (vm_compute; discriminate).
  split; [exact H1|]. split; [exact H2|]. split; [exact H3|].
  apply (proj1 (aggregation_correct 5 (map normalize [1; 1; 1; 0; 1]) (normalize 4) H1 H2 H3)).
  split.
  - repeat constructor; first [left; reflexivity | right; reflexivity].
  - vm_compute. discriminate.
Defined.

(* ================================================================= *)
(** * Proof lifecycle *)


Lemma normalize_small z : 0 <= z < p -> Zmod.to_Z (normalize z) = z.
Proof. apply to_Z_small. Qed.

Lemma normalize_flags fl :
  Forall (fun f => f = 0 \/ f = 1) fl ->
  Forall is_bit (map normalize fl) /\ count_ones (map normalize fl) = Zsum fl.
Proof.
  unfold count_ones.
  induction 1 as [|f fl Hf _ [IH1 IH2]]; cbn [map Zsum fold_right List.filter length].
  - split; [constructor | reflexivity].
  - fold (Zsum fl). destruct Hf as [-> | ->].
    + split; [constructor; [left; reflexivity | exact IH1]|].
      change (normalize 0 =? 1)%Fp with false. cbn iota. lia.
    + split; [constructor; [right; reflexivity | exact IH1]|].
      change (normalize 1 =? 1)%Fp with true. cbn iota. cbn [length]. lia.
Qed.

Lemma Zsum_bound fl :
  Forall (fun f => f = 0 \/ f = 1) fl -> 0 <= Zsum fl <= Z.of_nat (length fl).
Proof.
  induction 1 as [|f fl Hf _ IH]; cbn [Zsum fold_right length].
  - lia.
  - fold (Zsum fl). lia.
Qed.

(** Witness calculation succeeds on compliant inputs, with an assignment that
    satisfies the circuit. *)
Lemma calculate_witness_compliant c i :
  compliant c i ->
  exists w, calculate_witness c i = Ok w /\ witness_circuit w = c
            /\ constraints_hold w = true.
Proof.
  destruct c, i as [v T | fl k | fl k]; cbn [compliant]; try contradiction.
  - intros [Hv HT].
    pose proof (pow2_le_p 252 ltac:(lia)) as Hp. change (Z.of_nat 252) with 252 in Hp.
    assert (Hnv : Zmod.to_Z (normalize v) = v) by (apply normalize_small; lia).
    assert (HnT : Zmod.to_Z (normalize T) = T) by (apply normalize_small; lia).
    assert (Hok : is_ok (ComputeThreshold (normalize v) (normalize T)) = true).
    { apply ComputeThreshold_in_range; lia. }
    apply is_ok_iff in Hok as [s Hs].
    exists (ComputeWitness s). cbn [calculate_witness]. rewrite Hs.
    split; [reflexivity|]. split; [reflexivity|].
    cbn [constraints_hold]. apply ComputeThreshold_constraints_iff.
    destruct (ComputeThreshold_inputs _ _ _ Hs) as (-> & -> & _). exact Hs.
  - intros [[Hlen Hfl] Hk].
    destruct (normalize_flags fl Hfl) as [Hbits Hcnt].
    pose proof (Zsum_bound fl Hfl) as Hsum. rewrite Hlen in Hsum.
    assert (Hnk : Zmod.to_Z (normalize k) = k).
    { apply normalize_small. pose proof p_gt_1. change (Z.of_nat 5) with 5 in Hsum. 
      pose proof (pow2_le_p 8 ltac:(lia)) as Hp. change (2 ^ Z.of_nat 8) with 256 in Hp. lia. }
    assert (Hok : is_ok (FlagAggregation 5 (map normalize fl) (normalize k)) = true).
    { apply FlagAggregation_small; [lia | now rewrite length_map | lia |].
      split; [exact Hbits | lia]. }
    apply is_ok_iff in Hok as [s Hs].
    exists (EvaluationWitness s). cbn [calculate_witness].
    unfold EvaluationAttestation. rewrite Hs.
    split; [reflexivity|]. split; [reflexivity|].
    cbn [constraints_hold]. apply FlagAggregation_constraints_iff.
    destruct (FlagAggregation_inputs _ _ _ _ Hs) as (-> & -> & _). exact Hs.
  - intros [[Hlen Hfl] Hk].
    destruct (normalize_flags fl Hfl) as [Hbits Hcnt].
    pose proof (Zsum_bound fl Hfl) as Hsum. rewrite Hlen in Hsum.
    assert (Hnk : Zmod.to_Z (normalize k) = k).
    { apply normalize_small. change (Z.of_nat 8) with 8 in Hsum.
      pose proof (pow2_le_p 8 ltac:(lia)) as Hp. change (2 ^ Z.of_nat 8) with 256 in Hp. lia. }
    assert (Hok : is_ok (FlagAggregation 8 (map normalize fl) (normalize k)) = true).
    { apply FlagAggregation_small; [lia | now rewrite length_map | lia |].
      split; [exact Hbits | lia]. }
    apply is_ok_iff in Hok as [s Hs].
    exists (PolicyWitness s). cbn [calculate_witness].
    unfold PolicyCompliance. rewrite Hs.
    split; [reflexivity|]. split; [reflexivity|].
    cbn [constraints_hold]. apply FlagAggregation_constraints_iff.
    destruct (FlagAggregation_inputs _ _ _ _ Hs) as (-> & -> & _). exact Hs.
Qed.



(** Witness calculation for the compute circuit, for any two input numbers:
    it succeeds exactly on the wrapped-sum condition of
    [ComputeThreshold_ok_iff]. *)
Lemma calculate_witness_compute v T :
  (Zmod.to_Z (normalize v) + 2 ^ 252 - Zmod.to_Z (normalize T)) mod p < 2 ^ 252 ->
  exists s,
    calculate_witness compute_threshold (ComputeInput v T) = Ok (ComputeWitness s)
    /\ ComputeThreshold_constraints s = true
    /\ privateCompute s = normalize v /\ threshold s = normalize T
    /\ ct_valid s = 1%Fp.
Proof.
  intros H. apply ComputeThreshold_ok_iff, is_ok_iff in H as [s Hs].
  exists s. cbn [calculate_witness]. rewrite Hs.
  destruct (ComputeThreshold_inputs _ _ _ Hs) as (Hv & HT & Hvalid).
  split; [reflexivity|]. split; [|auto].
  apply ComputeThreshold_constraints_iff. rewrite Hv, HT. exact Hs.
Qed.



(** C1: soundness fails outside the comparator's range.  The private value
    [p - 1] is far above the threshold 10^25, yet witness calculation
    succeeds, every constraint holds and the public signals are those of a
    compliant claim; so any engine returns a proof.  Likewise the flag
    circuit accepts five zero flags against the minimum [p - 1]. *)
Theorem soundness_gap :
  let v := p - 1 in
  let T := 10000000000000000000000000 in
  T <= v
  /\ (exists s,
        calculate_witness compute_threshold (ComputeInput v T) = Ok (ComputeWitness s)
        /\ ComputeThreshold_constraints s = true
        /\ Zmod.to_Z (privateCompute s) = v /\ Zmod.to_Z (threshold s) = T
        /\ publicSignals (ComputeWitness s) = ["1"; "10000000000000000000000000"])
  /\ (forall G : Groth16, is_ok (@fullProve G compute_threshold (ComputeInput v T)) = true)
  /\ Zsum [0; 0; 0; 0; 0] < p - 1
  /\ is_ok (calculate_witness evaluation_attestation
              (EvaluationInput [0; 0; 0; 0; 0] (p - 1))) = true.
Proof.
  cbv zeta.
  destruct (calculate_witness_compute (p - 1) 10000000000000000000000000)
    as (s & Hw & Hsat & Hv & HT & Hvalid); [vm_compute; reflexivity|].
  split; [vm_compute; discriminate|].
  split.
  { exists s. split; [exact Hw|]. split; [exact Hsat|].
    rewrite Hv, HT. split; [vm_compute; reflexivity|]. split; [vm_compute; reflexivity|].
    cbn [publicSignals map]. rewrite Hvalid, HT. vm_compute. reflexivity. }
  split.
  { intros G. unfold fullProve. rewrite Hw. reflexivity. }
  split; vm_compute; reflexivity.
Qed.

(** Soundness does hold within the comparators' ranges. *)
Lemma soundness_in_range_compute (v T : Z) :
  0 <= v < 2 ^ 252 -> 0 <= T < 2 ^ 252 -> T <= v ->
  calculate_witness compute_threshold (ComputeInput v T) = Err ConstraintUnsatisfiable
  /\ ~ ComputeThreshold_satisfiable (normalize v) (normalize T).
Proof.
  intros Hv HT Hle.
  pose proof (pow2_le_p 252 ltac:(lia)) as Hp. change (Z.of_nat 252) with 252 in Hp.
  assert (Hnv : Zmod.to_Z (normalize v) = v) by (apply normalize_small; lia).
  assert (HnT : Zmod.to_Z (normalize T) = T) by (apply normalize_small; lia).
  assert (Hno : is_ok (ComputeThreshold (normalize v) (normalize T)) = false).
  { destruct (is_ok _) eqn:E; [|reflexivity].
    apply ComputeThreshold_in_range in E; lia. }
  split.
  - cbn [calculate_witness]. rewrite (ComputeThreshold_err _ _ Hno). reflexivity.
  - rewrite ComputeThreshold_satisfiable_iff, <- is_ok_iff, Hno. discriminate.
Qed.

Lemma soundness_flags (N : nat) (fl : list Fp) (k : Fp) :
  (1 <= N <= 255)%nat -> length fl = N -> Zmod.to_Z k <= Z.of_nat N ->
  ~ (Forall is_bit fl /\ Zmod.to_Z k <= count_ones fl) ->
  FlagAggregation N fl k = Err ConstraintUnsatisfiable
  /\ ~ FlagAggregation_satisfiable N fl k.
Proof.
  intros HN Hlen Hk Hbad.
  pose proof (FlagAggregation_small N fl k HN Hlen Hk) as Hok.
  assert (Hno : is_ok (FlagAggregation N fl k) = false).
  { destruct (is_ok _) eqn:E; [|reflexivity]. exfalso. apply Hbad, Hok. reflexivity. }
  split.
  - revert Hno. rewrite FlagAggregation_run, Hlen, Nat.eqb_refl.
    destruct (forallb boolean_constraint fl); [|reflexivity].
    destruct fl as [|f0 rest]; [cbn [length] in Hlen; lia|].
    rewrite GreaterEqThan_run, LessThan_run by lia. cbv zeta.
    destruct (_ <? _); [|reflexivity]. cbn [ge_out lt_out].
    destruct (_ =? _)%Fp; [discriminate | reflexivity].
  - rewrite FlagAggregation_satisfiable_iff, <- is_ok_iff, Hno. discriminate.
Qed.

(** C10: the compute circuit constrains [privateCompute] only through the
    decomposition of [privateCompute + 2^252 - threshold]: it is satisfiable
    exactly when that field element is below [2^252].  So for every
    threshold below [2^252] the private input [p - 1] (the field's -1), which
    is at least the threshold and outside the comparator's 252-bit range, has
    a satisfying witness with [valid = 1]. *)
Theorem compute_threshold_range_gap (T : Fp) :
  Zmod.to_Z T < 2 ^ 252 ->
  let v := normalize (p - 1) in
  (forall v' T' : Fp,
     ComputeThreshold_satisfiable v' T'
     <-> (Zmod.to_Z v' + 2 ^ 252 - Zmod.to_Z T') mod p < 2 ^ 252)
  /\ Zmod.to_Z v = p - 1
  /\ Zmod.to_Z T <= Zmod.to_Z v
  /\ 2 ^ 252 <= Zmod.to_Z v
  /\ ComputeThreshold_satisfiable v T
  /\ exists s, ComputeThreshold v T = Ok s
               /\ privateCompute s = v /\ threshold s = T
               /\ ct_valid s = 1%Fp
               /\ ComputeThreshold_constraints s = true.
Proof.
  intros HT v.
  assert (Hchar : forall v' T' : Fp,
             ComputeThreshold_satisfiable v' T'
             <-> (Zmod.to_Z v' + 2 ^ 252 - Zmod.to_Z T') mod p < 2 ^ 252).
  { intros v' T'.
    rewrite ComputeThreshold_satisfiable_iff, <- is_ok_iff. apply ComputeThreshold_ok_iff. }
  assert (Hv : Zmod.to_Z v = p - 1) by reflexivity.
  pose proof (to_Z_bound T) as HT0.
  assert (Hp252 : 2 ^ 252 < p - 1) by reflexivity.
  assert (Hsat : ComputeThreshold_satisfiable v T).
  { apply Hchar. rewrite Hv.
    replace (p - 1 + 2 ^ 252 - Zmod.to_Z T)
      with (2 ^ 252 - 1 - Zmod.to_Z T + 1 * p) by ring.
    rewrite Z.mod_add by exact p_nonzero.
    rewrite Z.mod_small; lia. }
  split; [exact Hchar|]. split; [exact Hv|]. split; [lia|]. split; [lia|].
  split; [exact Hsat|].
  apply ComputeThreshold_satisfiable_iff in Hsat as [s Hs].
  exists s. destruct (ComputeThreshold_inputs _ _ _ Hs) as (H1 & H2 & H3).
  split; [exact Hs|]. split; [exact H1|]. split; [exact H2|]. split; [exact H3|].
  apply ComputeThreshold_constraints_iff. rewrite H1, H2. exact Hs.
Qed.

Lemma compute_threshold_range_gap_witness :
  Zmod.to_Z (normalize 10000000000000000000000000) < 2 ^ 252
  /\ ComputeThreshold_satisfiable (normalize (p - 1))
       (normalize 10000000000000000000000000).
Proof.
  assert (H : Zmod.to_Z (normalize 10000000000000000000000000) < 2 ^ 252)
    by reflexivity.
  split; [exact H|].
  exact (proj1 (proj2 (proj2 (proj2 (proj2
           (compute_threshold_range_gap (normalize 10000000000000000000000000) H)))))).
Defined.

(* ================================================================= *)
(** * Persistence *)

Lemma append_cancel_l (s a b : string) : s +:+ a = s +:+ b -> a = b.
Proof.
  induction s as [|ch s IH]; cbn [String.append]; [auto|].
  intros [= E]. apply IH, E.
Qed.

Lemma proof_public_paths_differ (root : string) (c : circuit) :
  path_join (path_join root "data") (circuitName c +:+ "_proof.json")
  <> path_join (path_join root "data") (circuitName c +:+ "_public.json").
Proof.
  unfold path_join. intros E.
  apply append_cancel_l, append_cancel_l, append_cancel_l in E.
  destruct c; discriminate E.
Qed.

(** C8: when the proving call fails, [generateProof] and
    [fullProveAndPersist] return the failure and the file system they were
    given, untouched: neither the proof file nor the public-signals file is
    written.  When it succeeds both files are written with the returned
    pair; so the scripts reject a claim exactly when the proving call
    fails, as it does on the non-compliant input of the demo. *)
Theorem failed_generation_is_atomic `{HH : Host} (c : circuit) (i : input) (σ : fs) :
  let proofPath :=
    path_join (path_join projectRoot "data") (circuitName c +:+ "_proof.json") in
  let publicPath :=
    path_join (path_join projectRoot "data") (circuitName c +:+ "_public.json") in
  (forall e, fullProve c i = Err e ->
     generate_proof.generateProof c i σ = (σ, Err e)
     /\ demo.fullProveAndPersist c i σ = (σ, Err e))
  /\ (forall π publicSignals, fullProve c i = Ok (π, publicSignals) ->
        demo.fullProveAndPersist c i σ = generate_proof.generateProof c i σ
        /\ snd (generate_proof.generateProof c i σ) = Ok (π, publicSignals)
        /\ files (fst (generate_proof.generateProof c i σ)) !! proofPath
           = Some (JSON_stringify (JProof π))
        /\ files (fst (generate_proof.generateProof c i σ)) !! publicPath
           = Some (JSON_stringify (JArray (map JString publicSignals))))
  /\ is_ok (snd (generate_proof.generateProof c i σ)) = is_ok (fullProve c i)
  /\ is_ok (snd (demo.fullProveAndPersist c i σ)) = is_ok (fullProve c i)
  /\ demo.fullProveAndPersist compute_threshold
       (ComputeInput 20000000000000000000000000 10000000000000000000000000) σ
     = (σ, Err ConstraintUnsatisfiable).
Proof.
  cbv zeta. unfold generate_proof.generateProof, demo.fullProveAndPersist, demo.ensureDataDir.
  split; [|split; [|split; [|split]]].
  - intros e He. rewrite He. split; reflexivity.
  - intros π pub Hok. rewrite Hok. cbv zeta. cbn [fst snd].
    split; [reflexivity|]. split; [reflexivity|].
    cbn [writeFileSync files]. split.
    + rewrite lookup_insert_ne by (apply not_eq_sym, proof_public_paths_differ).
      apply lookup_insert_eq.
    + apply lookup_insert_eq.
  - destruct (fullProve c i) as [[π pub]|e]; reflexivity.
  - destruct (fullProve c i) as [[π pub]|e]; reflexivity.
  - unfold fullProve.
    destruct (soundness_in_range_compute
                20000000000000000000000000 10000000000000000000000000)
      as [Herr _]; [split; [discriminate | reflexivity]
                   | split; [discriminate | reflexivity] | discriminate |].
    rewrite Herr. reflexivity.
Qed.

(* ================================================================= *)
(** * Composite proofs *)

Lemma as_strings_map {P} (l : list string) :
  as_strings (map (@JString P) l) = Ok l.
Proof.
  induction l as [|s l IH]; cbn [map as_strings]; [reflexivity|].
  rewrite IH. reflexivity.
Qed.

Lemma property_error {P} k (v : option (json P)) e :
  property k v = Err e -> e = MalformedArtifact.
Proof.
  unfold property. destruct v as [[s|l|fields|π]|]; try discriminate.
  intros [= <-]. reflexivity.
Qed.

Lemma assoc_obj_set {V} (k k' : string) (v : V) (l : list (string * V)) :
  assoc k' (obj_set k v l) = if String.eqb k' k then Some v else assoc k' l.
Proof.
  induction l as [|[k0 v0] l IH]; cbn [obj_set assoc].
  - reflexivity.
  - destruct (String.eqb k k0) eqn:E; cbn [assoc].
    + apply String.eqb_eq in E. subst k0. destruct (String.eqb k' k); reflexivity.
    + rewrite IH. destruct (String.eqb k' k0) eqn:E0; [|reflexivity].
      apply String.eqb_eq in E0. subst k0.
      rewrite String.eqb_sym, E. reflexivity.
Qed.

Lemma member_entry_add_claim {P} k (j c : json P) circ :
  circuitName circ <> k ->
  member_entry (add_claim k j c) circ = member_entry c circ.
Proof.
  intros Hk. unfold member_entry, add_claim.
  destruct c as [s|l|top|π]; try reflexivity.
  destruct (assoc "proofs" top) as [[s|l|members|π]|] eqn:E; try reflexivity.
  cbn [property]. rewrite assoc_obj_set, String.eqb_refl, E.
  cbn [mbind result_bind property]. rewrite assoc_obj_set.
  destruct (String.eqb_spec (circuitName circ) k) as [Heq|_]; [contradiction|].
  reflexivity.
Qed.

Section composite.
Context `{HH : Host} {SV : StoredVerifier}.

(** A round of the verification loop, from the entry it reads. *)
Lemma verifyMember_entry (c : json proof) circ :
  composite_proof.verifyMember c circ
  = (proofData ← member_entry c circ;
     publicSignals ← property "publicSignals" proofData;
     π ← property "proof" proofData;
     groth16_verify_stored (verification_key circ) publicSignals π).
Proof.
  unfold composite_proof.verifyMember, member_entry. cbv zeta.
  destruct (property "proofs" (Some c)); reflexivity.
Qed.

Lemma verifyMember_same_entry (c c' : json proof) circ :
  member_entry c' circ = member_entry c circ ->
  composite_proof.verifyMember c' circ = composite_proof.verifyMember c circ.
Proof. intros E. rewrite !verifyMember_entry, E. reflexivity. Qed.

Lemma verifyMember_missing (c : json proof) circ :
  (forall proofData, member_entry c circ <> Ok (Some proofData)) ->
  composite_proof.verifyMember c circ = Err MalformedArtifact.
Proof.
  intros Hmiss. rewrite verifyMember_entry.
  destruct (member_entry c circ) as [[proofData|]|e] eqn:E; cbn [mbind result_bind].
  - exfalso. apply (Hmiss proofData). reflexivity.
  - reflexivity.
  - f_equal. unfold member_entry in E.
    destruct (property "proofs" (Some c)) as [proofs|e0] eqn:E0;
      cbn [mbind result_bind] in E.
    + eapply property_error, E.
    + injection E as <-. eapply property_error, E0.
Qed.

Lemma verifyMember_present (c : json proof) circ proofData :
  member_entry c circ = Ok (Some proofData) ->
  exists publicSignals π,
    property "publicSignals" (Some proofData) = Ok publicSignals
    /\ property "proof" (Some proofData) = Ok π
    /\ composite_proof.verifyMember c circ
       = groth16_verify_stored (verification_key circ) publicSignals π.
Proof.
  intros E. rewrite verifyMember_entry, E. cbn [mbind result_bind].
  destruct proofData as [s|l|fields|π0]; cbn [property mbind result_bind];
    eexists; eexists; repeat split; reflexivity.
Qed.

(** In the bundle [composeProofs] builds, the round of the verification loop
    for a circuit hands that circuit's (proof, publicSignals) pair, as
    stored, to the verifier under that circuit's key. *)
Lemma verifyMember_composed now proofs σ :
  let artifact := snd (composite_proof.composeProofs now proofs σ) in
  composite_proof.verifyMember artifact compute_threshold
  = member_verifies compute_threshold (compute proofs)
  /\ composite_proof.verifyMember artifact evaluation_attestation
     = member_verifies evaluation_attestation (evaluation proofs)
  /\ composite_proof.verifyMember artifact policy_compliance
     = member_verifies policy_compliance (policy proofs).
Proof.
  cbv zeta. unfold composite_proof.verifyMember, composite_proof.composeProofs,
    member_verifies.
  cbn [snd property assoc String.eqb Ascii.eqb Bool.eqb circuitName mbind result_bind].
  repeat split; reflexivity.
Qed.

Lemma compositeVerdict_cases (c : json proof) :
  composite_proof.compositeVerdict c =
    match composite_proof.verifyMember c compute_threshold with
    | Err e => Err e
    | Ok v1 =>
        match composite_proof.verifyMember c evaluation_attestation with
        | Err e => Err e
        | Ok v2 =>
            match composite_proof.verifyMember c policy_compliance with
            | Err e => Err e
            | Ok v3 => Ok (v1 && (v2 && (v3 && true)))
            end
        end
    end.
Proof.
  unfold composite_proof.compositeVerdict, composite_proof.verifyCompositeProof,
    composite_proof.circuits.
  cbn [composite_proof.verifyLoop].
  destruct (composite_proof.verifyMember c compute_threshold) as [v1|];
    cbn [mbind result_bind]; [|reflexivity].
  destruct (composite_proof.verifyMember c evaluation_attestation) as [v2|];
    cbn [mbind result_bind]; [|reflexivity].
  destruct (composite_proof.verifyMember c policy_compliance) as [v3|];
    cbn [mbind result_bind]; reflexivity.
Qed.

Lemma compositeVerdict_true (c : json proof) :
  composite_proof.compositeVerdict c = Ok true
  <-> forall circ, composite_proof.verifyMember c circ = Ok true.
Proof.
  rewrite compositeVerdict_cases. split.
  - destruct (composite_proof.verifyMember c compute_threshold) as [[|]|] eqn:E1;
      destruct (composite_proof.verifyMember c evaluation_attestation) as [[|]|] eqn:E2;
      destruct (composite_proof.verifyMember c policy_compliance) as [[|]|] eqn:E3;
      cbn [andb]; try discriminate.
    intros _ circ. destruct circ; assumption.
  - intros Hall. rewrite !Hall. reflexivity.
Qed.

Lemma compositeVerdict_same_entries (c c' : json proof) :
  (forall circ, member_entry c' circ = member_entry c circ) ->
  composite_proof.verifyCompositeProof c' = composite_proof.verifyCompositeProof c
  /\ composite_proof.compositeVerdict c' = composite_proof.compositeVerdict c.
Proof.
  intros Hsame.
  assert (Hm : forall circ, composite_proof.verifyMember c' circ
                            = composite_proof.verifyMember c circ).
  { intros circ. apply verifyMember_same_entry, Hsame. }
  split.
  - unfold composite_proof.verifyCompositeProof, composite_proof.circuits.
    cbn [composite_proof.verifyLoop]. rewrite !Hm. reflexivity.
  - rewrite !compositeVerdict_cases, !Hm. reflexivity.
Qed.

End composite.


(** C6, as stated, fails on composites that do not hold exactly the three
    members: a composite of two members, both of which verify, gets no
    verdict at all, because reading the absent third entry throws; and a
    composite that holds a fourth, forged member, which verifies under no
    key, gets the verdict true. *)
Lemma composite_atomicity_counterexample :
  (@spec_composite_valid echo_engine (strict_verifier echo_engine)
     two_member_composite = true
   /\ @composite_proof.compositeVerdict echo_engine (strict_verifier echo_engine)
        two_member_composite = Err MalformedArtifact)
  /\ (@spec_composite_valid echo_engine (strict_verifier echo_engine)
        four_member_composite = false
      /\ @composite_proof.compositeVerdict echo_engine (strict_verifier echo_engine)
           four_member_composite = Ok true
      /\ forall c : circuit,
           (publicSignals ← property "publicSignals" (Some forged_member);
            π ← property "proof" (Some forged_member);
            @groth16_verify_stored echo_engine (strict_verifier echo_engine)
              (verification_key c) publicSignals π) = Ok false).
Proof.
  split; [split; vm_compute; reflexivity|].
  split; [vm_compute; reflexivity|].
  split; [vm_compute; reflexivity|].
  intros c. destruct c; vm_compute; reflexivity.
Qed.

(** C6, as the code has it: the verdict on a composite is the conjunction of
    three verifications, one for each of the fixed entries
    [compute_threshold], [evaluation_attestation] and [policy_compliance],
    each made by handing the entry's stored [publicSignals] and [proof] to
    the verifier under that circuit's own key.  The verdict is true exactly
    when all three return true, and false exactly when all three return and
    one of them returns false; when an entry is missing or the verifier
    throws there is no verdict.  Nothing else in the composite is looked at.
    For the bundle [composeProofs] builds, the three verifications are those
    of the three bundled pairs. *)
Theorem composite_atomicity `{HH : Host} {SV : StoredVerifier}
  (c : json proof) (now : string) (proofs : individualProofs proof) (σ : fs) :
  let member := composite_proof.verifyMember c in
  let artifact := snd (composite_proof.composeProofs now proofs σ) in
  let pair (circ : circuit) :=
    match circ with
    | compute_threshold => compute proofs
    | evaluation_attestation => evaluation proofs
    | policy_compliance => policy proofs
    end in
  (composite_proof.compositeVerdict c = Ok true
   <-> forall circ, member circ = Ok true)
  /\ (composite_proof.compositeVerdict c = Ok false
      <-> (forall circ, exists v, member circ = Ok v)
          /\ exists circ, member circ = Ok false)
  /\ (forall circ e, member circ = Err e ->
        is_ok (composite_proof.compositeVerdict c) = false)
  /\ (forall circ,
        member circ
        = (proofData ← member_entry c circ;
           publicSignals ← property "publicSignals" proofData;
           π ← property "proof" proofData;
           groth16_verify_stored (verification_key circ) publicSignals π))
  /\ (forall c' : json proof,
        (forall circ, member_entry c' circ = member_entry c circ) ->
        composite_proof.verifyCompositeProof c' = composite_proof.verifyCompositeProof c
        /\ composite_proof.compositeVerdict c' = composite_proof.compositeVerdict c)
  /\ (forall circ,
        composite_proof.verifyMember artifact circ = member_verifies circ (pair circ))
  /\ (composite_proof.compositeVerdict artifact = Ok true
      <-> forall circ, member_verifies circ (pair circ) = Ok true).
Proof.
  cbv zeta.
  destruct (verifyMember_composed now proofs σ) as (H1 & H2 & H3). cbv zeta in H1, H2, H3.
  assert (Hart : forall circ,
             composite_proof.verifyMember
               (snd (composite_proof.composeProofs now proofs σ)) circ
             = member_verifies circ
                 match circ with
                 | compute_threshold => compute proofs
                 | evaluation_attestation => evaluation proofs
                 | policy_compliance => policy proofs
                 end).
  { intros circ. destruct circ; assumption. }
  split; [apply compositeVerdict_true|].
  split.
  { rewrite compositeVerdict_cases. split.
    - destruct (composite_proof.verifyMember c compute_threshold) as [v1|] eqn:E1;
        [|discriminate].
      destruct (composite_proof.verifyMember c evaluation_attestation) as [v2|] eqn:E2;
        [|discriminate].
      destruct (composite_proof.verifyMember c policy_compliance) as [v3|] eqn:E3;
        [|discriminate].
      intros [= Hv]. split.
      + intros circ. destruct circ; eexists; eassumption.
      + destruct v1; [|exists compute_threshold; exact E1].
        destruct v2; [|exists evaluation_attestation; exact E2].
        destruct v3; [discriminate Hv|exists policy_compliance; exact E3].
    - intros [Hret [circ Hfalse]].
      destruct (Hret compute_threshold) as [v1 E1].
      destruct (Hret evaluation_attestation) as [v2 E2].
      destruct (Hret policy_compliance) as [v3 E3].
      rewrite E1, E2, E3. f_equal.
      destruct circ; rewrite Hfalse in *.
      + injection E1 as <-. reflexivity.
      + injection E2 as <-. apply andb_false_r.
      + injection E3 as <-. cbn [andb]. rewrite !andb_false_r. reflexivity. }
  split.
  { intros circ e Herr. rewrite compositeVerdict_cases.
    destruct (composite_proof.verifyMember c compute_threshold) as [v1|] eqn:E1;
      [|reflexivity].
    destruct (composite_proof.verifyMember c evaluation_attestation) as [v2|] eqn:E2;
      [|reflexivity].
    destruct (composite_proof.verifyMember c policy_compliance) as [v3|] eqn:E3;
      [|reflexivity].
    destruct circ; congruence. }
  split; [intros circ; apply verifyMember_entry|].
  split; [intros c'; apply compositeVerdict_same_entries|].
  split; [exact Hart|].
  rewrite compositeVerdict_true. split; intros Hall circ.
  - rewrite <- Hart. apply Hall.
  - rewrite Hart. apply Hall.
Qed.

(* ================================================================= *)
(** * The layout of the composite artifact *)

(** C9, as stated, fails: the artifact [main] bundles is not laid out as the
    interface schema reads: [submitter] and [framework] are not top-level fields, and there is
    no field [claims]. *)
Lemma composite_schema_counterexample :
  exists proofs,
    @composite_proof.generateIndividualProofs transparent_engine = Ok proofs
    /\ let artifact :=
         snd (@composite_proof.composeProofs transparent_engine transparent_host
                "2026-01-01T00:00:00.000Z" proofs empty_fs) in
       spec_composite_schema artifact = false
       /\ has_field "submitter" artifact = false
       /\ has_field "framework" artifact = false
       /\ has_field "claims" artifact = false.
Proof.
  destruct (@composite_proof.generateIndividualProofs transparent_engine)
    as [proofs|e] eqn:E.
  - exists proofs. split; [reflexivity|]. cbv zeta. repeat split; reflexivity.
  - exfalso. revert E. vm_compute. discriminate.
Qed.

(** C9, as the code has it: the bundle is an object with exactly the fields
    [version], [timestamp], [proofs] and [metadata]; [proofs] is keyed by the
    three circuit names and each entry holds [proof], [publicSignals] and a
    human-readable [claim]; [submitter] and [framework] sit inside
    [metadata], beside [compositionMethod]; and this object is what is
    written to [data/composite_proof.json]. *)
Theorem composite_layout `{HH : Host}
  (now : string) (proofs : individualProofs proof) (σ : fs) :
  let composed := composite_proof.composeProofs now proofs σ in
  let artifact := snd composed in
  let entry (m : proof * list string) (label : string) :=
    JObject [("proof", JProof (fst m));
             ("publicSignals", JArray (map JString (snd m)));
             ("claim", JString label)] in
  bundled_schema artifact = true
  /\ prop "version" artifact = Ok (JString "1.0")
  /\ prop "timestamp" artifact = Ok (JString now)
  /\ (prop "metadata" artifact ≫= prop "submitter") = Ok (JString "AI Lab Example Inc.")
  /\ (prop "metadata" artifact ≫= prop "framework") = Ok (JString "EU AI Act + RSP")
  /\ (prop "metadata" artifact ≫= prop "compositionMethod")
     = Ok (JString "bundled_verification")
  /\ (prop "proofs" artifact ≫= prop "compute_threshold")
     = Ok (entry (compute proofs) "Training compute below regulatory threshold")
  /\ (prop "proofs" artifact ≫= prop "evaluation_attestation")
     = Ok (entry (evaluation proofs) "All required safety evaluations completed")
  /\ (prop "proofs" artifact ≫= prop "policy_compliance")
     = Ok (entry (policy proofs) "Responsible Scaling Policy requirements met")
  /\ has_field "submitter" artifact = false
  /\ has_field "framework" artifact = false
  /\ has_field "claims" artifact = false
  /\ files (fst composed)
       !! path_join (path_join projectRoot "data") "composite_proof.json"
     = Some (JSON_stringify artifact).
Proof.
  cbv zeta. unfold composite_proof.composeProofs. cbn [fst snd].
  repeat split; try reflexivity.
  cbn [writeFileSync files]. apply lookup_insert_eq.
Qed.

(* ================================================================= *)
(** * Bit decomposition and determinacy of the circuits *)

(* ================================================================= *)
(** * Further properties of the templates *)

Lemma bit_testbit (x : Fp) i :
  0 <= i ->
  Zmod.to_Z (band (shr x i) 1%Fp) = Z.b2z (Z.testbit (Zmod.to_Z x) i).
Proof. intros Hi. rewrite bit_value, Z.testbit_spec' by lia. reflexivity. Qed.

(** X1: the witness computation of [Num2Bits(n)] returns the [n] low binary
    digits of its input when the input is below [2^n], and they sum back to
    the input; on any larger input it fails on [lc1 === in]. *)
Theorem Num2Bits_generation (n : nat) (x : Fp) :
  (Zmod.to_Z x < 2 ^ Z.of_nat n ->
   exists out,
     Num2Bits n x = Ok out /\ length out = n /\ Forall is_bit out
     /\ bits_value out = Zmod.to_Z x
     /\ forall i, (i < n)%nat ->
          Zmod.to_Z (nth i out 0%Fp) = Z.b2z (Z.testbit (Zmod.to_Z x) (Z.of_nat i)))
  /\ (2 ^ Z.of_nat n <= Zmod.to_Z x -> Num2Bits n x = Err ConstraintUnsatisfiable).
Proof.
  pose proof (to_Z_bound x) as Hx. rewrite Num2Bits_run. split.
  - intros Hlt. apply Z.ltb_lt in Hlt. rewrite Hlt. apply Z.ltb_lt in Hlt.
    exists (bits_from x 0 n). split; [reflexivity|].
    split; [apply bits_from_length|]. split; [apply bits_from_is_bit; lia|].
    split.
    + rewrite bits_from_value, Z.pow_0_r, Z.div_1_r by lia. apply Z.mod_small. lia.
    + intros i Hi. rewrite nth_bits_from, Z.add_0_l by exact Hi.
      apply bit_testbit. lia.
  - intros Hge. apply Z.ltb_ge in Hge. rewrite Hge. reflexivity.
Qed.

(** The binary digits of [p], which also denote 0 in the field. *)
Lemma Num2Bits_254_ambiguous :
  exists out1 out2 : list Fp,
    out1 <> out2
    /\ Num2Bits_constraints 254 0%Fp out1 = true
    /\ Num2Bits_constraints 254 0%Fp out2 = true.
Proof.
  exists (bits_from 0%Fp 0 254),
         (map (fun i => Zmod.of_Z p (Z.b2z (Z.testbit p (Z.of_nat i)))) (seq 0 254)).
  split; [|split].
  - intros E. apply (f_equal (fun l => Zmod.to_Z (nth 0 l 0%Fp))) in E.
    vm_compute in E. discriminate E.
  - vm_compute. reflexivity.
  - vm_compute. reflexivity.
Qed.

(** X2: for widths up to 253 bits the constraints of [Num2Bits(n)] leave no
    freedom: the only satisfying outputs are the binary digits of the input.
    At width 254 this fails: 0 is also denoted by the digits of [p]. *)
Theorem Num2Bits_unique_decomposition :
  (forall (n : nat) (x : Fp) (out : list Fp),
     (n <= 253)%nat ->
     (Num2Bits_constraints n x out = true
      <-> Zmod.to_Z x < 2 ^ Z.of_nat n /\ Num2Bits n x = Ok out))
  /\ (exists out1 out2 : list Fp,
        out1 <> out2
        /\ Num2Bits_constraints 254 0%Fp out1 = true
        /\ Num2Bits_constraints 254 0%Fp out2 = true).
Proof.
  split; [|exact Num2Bits_254_ambiguous].
  intros n x out Hn. rewrite Num2Bits_constraints_unique by exact Hn.
  rewrite Num2Bits_run. split.
  - intros [Hlt ->]. split; [exact Hlt|]. apply Z.ltb_lt in Hlt. rewrite Hlt. reflexivity.
  - intros [Hlt Hrun]. split; [exact Hlt|]. apply Z.ltb_lt in Hlt. rewrite Hlt in Hrun.
    congruence.
Qed.

(** X3: decomposing the value of a list of at most 253 bits gives the list
    back. *)
Theorem Num2Bits_roundtrip (out : list Fp) :
  Forall is_bit out -> (length out <= 253)%nat ->
  Num2Bits (length out) (Zmod.of_Z p (bits_value out)) = Ok out.
Proof.
  intros Hbits Hlen.
  pose proof (bits_value_bound out Hbits) as Hv.
  pose proof (pow2_le_p _ Hlen) as Hp.
  assert (Hx : Zmod.to_Z (Zmod.of_Z p (bits_value out)) = bits_value out)
    by (apply to_Z_small; lia).
  rewrite Num2Bits_run, Hx.
  destruct (Z.ltb_spec (bits_value out) (2 ^ Z.of_nat (length out))); [|lia].
  f_equal. apply bits_unique; [exact Hbits | lia |].
  rewrite Hx, Z.pow_0_r, Z.div_1_r. apply Z.mod_small. lia.
Qed.

Lemma Num2Bits_roundtrip_witness :
  let out := map normalize [1; 0; 1; 1] in
  Forall is_bit out /\ (length out <= 253)%nat
  /\ Num2Bits (length out) (Zmod.of_Z p (bits_value out)) = Ok out.
Proof.
  assert (H1 : Forall is_bit (map normalize [1; 0; 1; 1])).
  { repeat constructor; first [left; reflexivity | right; reflexivity]. }
  assert (H2 : (length (map normalize [1; 0; 1; 1]%Z) <= 253)%nat) by (cbn; lia).
  split; [exact H1|]. split; [exact H2|].
  exact (Num2Bits_roundtrip (map normalize [1; 0; 1; 1]) H1 H2).
Defined.

(** X4: an assignment of the signals of [LessThan(n)] or [GreaterEqThan(n)]
    satisfies the template's constraints exactly when [n <= 252] (the
    template's assertion) and the assignment is what the witness computation
    returns on its two inputs. *)
Theorem comparators_determined (n : nat) :
  (forall s : LessThan_signals,
     LessThan_constraints n s = true
     <-> (n <= 252)%nat /\ LessThan n (lt_in0 s) (lt_in1 s) = Ok s)
  /\ (forall s : GreaterEqThan_signals,
        GreaterEqThan_constraints n s = true
        <-> (n <= 252)%nat /\ GreaterEqThan n (ge_in0 s) (ge_in1 s) = Ok s)
  /\ ((252 < n)%nat ->
      forall a b, LessThan n a b = Err TemplateAssert
                  /\ GreaterEqThan n a b = Err TemplateAssert).
Proof.
  split; [intros s; apply LessThan_constraints_iff|].
  split; [intros s; apply GreaterEqThan_constraints_iff|].
  intros Hn a b.
  assert (E : LessThan n a b = Err TemplateAssert).
  { unfold LessThan. destruct (Nat.leb_spec n 252); [lia | reflexivity]. }
  split; [exact E|]. rewrite GreaterEqThan_run, E. reflexivity.
Qed.

(** X5: the compute circuit has no free signal: an assignment satisfies its
    constraints exactly when it is the result of the witness computation on
    its two inputs, so two satisfying assignments with the same inputs are
    equal. *)
Theorem ComputeThreshold_determined :
  (forall s, ComputeThreshold_constraints s = true
             <-> ComputeThreshold (privateCompute s) (threshold s) = Ok s)
  /\ (forall s1 s2,
        ComputeThreshold_constraints s1 = true ->
        ComputeThreshold_constraints s2 = true ->
        privateCompute s1 = privateCompute s2 -> threshold s1 = threshold s2 ->
        s1 = s2).
Proof.
  split; [exact ComputeThreshold_constraints_iff|].
  intros s1 s2 H1 H2 Hv HT.
  apply ComputeThreshold_constraints_iff in H1, H2. rewrite Hv, HT in H1. congruence.
Qed.

(** X6: the same for the aggregation circuits: the flags and the minimum
    determine every other signal of a satisfying assignment. *)
Theorem FlagAggregation_determined (N : nat) :
  (forall s, FlagAggregation_constraints N s = true
             <-> FlagAggregation N (flags s) (minimum s) = Ok s)
  /\ (forall s1 s2,
        FlagAggregation_constraints N s1 = true ->
        FlagAggregation_constraints N s2 = true ->
        flags s1 = flags s2 -> minimum s1 = minimum s2 ->
        s1 = s2).
Proof.
  split; [exact (FlagAggregation_constraints_iff N)|].
  intros s1 s2 H1 H2 Hf Hk.
  apply FlagAggregation_constraints_iff in H1, H2. rewrite Hf, Hk in H1. congruence.
Qed.

(* ================================================================= *)
(** * Range of the circuits *)

(** X7: when the private value and the threshold are both below [2^252] and
    the private value is not below the threshold, witness calculation for
    the compute circuit fails with [ConstraintUnsatisfiable] and no
    assignment satisfies the circuit. *)
Theorem compute_rejects_in_range (v T : Z) :
  0 <= v < 2 ^ 252 -> 0 <= T < 2 ^ 252 -> T <= v ->
  calculate_witness compute_threshold (ComputeInput v T) = Err ConstraintUnsatisfiable
  /\ ~ ComputeThreshold_satisfiable (normalize v) (normalize T).
Proof. exact (soundness_in_range_compute v T). Qed.

Lemma compute_rejects_in_range_witness :
  0 <= 7 < 2 ^ 252 /\ 0 <= 7 < 2 ^ 252 /\ 7 <= 7
  /\ calculate_witness compute_threshold (ComputeInput 7 7) = Err ConstraintUnsatisfiable.
Proof.
  assert (H1 : 0 <= 7 < 2 ^ 252) by (split; [discriminate | reflexivity]).
  assert (H2 : 7 <= 7) by discriminate.
  split; [exact H1|]. split; [exact H1|]. split; [exact H2|].
  exact (proj1 (compute_rejects_in_range 7 7 H1 H1 H2)).
Defined.

(** The aggregation templates for any flag count up to 255 and any minimum
    up to 255. *)
Lemma FlagAggregation_255 N fl k :
  (1 <= N <= 255)%nat -> length fl = N -> Zmod.to_Z k <= 255 ->
  (is_ok (FlagAggregation N fl k) = true
   <-> Forall is_bit fl /\ Zmod.to_Z k <= count_ones fl)
  /\ (is_ok (FlagAggregation N fl k) = false ->
      FlagAggregation N fl k = Err ConstraintUnsatisfiable).
Proof.
  intros HN Hlen Hk. rewrite FlagAggregation_run, Hlen, Nat.eqb_refl.
  destruct (forallb boolean_constraint fl) eqn:Hb.
  - apply forallb_boolean in Hb.
    destruct (flag_sum_bits fl Hb) as [Hcnt Hrange]. rewrite Hlen in Hrange.
    destruct fl as [|f0 rest]; [cbn [length] in Hlen; lia|].
    assert (Hsum : Zmod.to_Z (Zmod.of_Z p (flag_sum (f0 :: rest))) = flag_sum (f0 :: rest)).
    { apply to_Z_small. pose proof (pow2_le_p 8 ltac:(lia)) as Hp.
      change (2 ^ Z.of_nat 8) with 256 in Hp. lia. }
    destruct (GreaterEqThan8_small (Zmod.of_Z p (flag_sum (f0 :: rest))) k)
      as (chk & Hge & Hout); [lia | lia |].
    rewrite Hge, Hsum, Hcnt in *.
    destruct (ge_out chk =? 1)%Fp eqn:E; cbn [is_ok].
    + apply Fp_eqb_eq in E. split; [|discriminate]. split; [|reflexivity].
      intros _. split; [exact Hb|]. apply Hout, E.
    + split; [|reflexivity]. split; [discriminate|]. intros [_ Hle]. apply Hout in Hle.
      rewrite Hle, Zmod.eqb_refl in E. discriminate.
  - cbn [is_ok]. split; [|reflexivity]. split; [discriminate|]. intros [Hbits _].
    apply forallb_boolean in Hbits. congruence.
Qed.

(** X8: the aggregation templates instantiated at any flag count [N] from 1
    to 255, with any minimum up to 255: witness computation succeeds exactly
    when every flag is a bit and at least [k] flags are 1; otherwise it fails
    with [ConstraintUnsatisfiable] and the constraints have no solution.  In
    particular a minimum above [N] can never be met. *)
Theorem aggregation_up_to_255 (N : nat) (fl : list Fp) (k : Fp) :
  (1 <= N <= 255)%nat -> length fl = N -> Zmod.to_Z k <= 255 ->
  (is_ok (FlagAggregation N fl k) = true
   <-> Forall is_bit fl /\ Zmod.to_Z k <= count_ones fl)
  /\ (FlagAggregation_satisfiable N fl k
      <-> Forall is_bit fl /\ Zmod.to_Z k <= count_ones fl)
  /\ (~ (Forall is_bit fl /\ Zmod.to_Z k <= count_ones fl) ->
      FlagAggregation N fl k = Err ConstraintUnsatisfiable)
  /\ (Z.of_nat N < Zmod.to_Z k -> FlagAggregation N fl k = Err ConstraintUnsatisfiable).
Proof.
  intros HN Hlen Hk.
  destruct (FlagAggregation_255 N fl k HN Hlen Hk) as [Hok Herr].
  assert (Hbad : ~ (Forall is_bit fl /\ Zmod.to_Z k <= count_ones fl) ->
                 FlagAggregation N fl k = Err ConstraintUnsatisfiable).
  { intros Hno. apply Herr. destruct (is_ok _) eqn:E; [|reflexivity].
    exfalso. apply Hno, Hok. reflexivity. }
  split; [exact Hok|].
  split; [rewrite FlagAggregation_satisfiable_iff, <- is_ok_iff; exact Hok|].
  split; [exact Hbad|].
  intros Hgt. apply Hbad. intros [Hbits Hle].
  destruct (flag_sum_bits fl Hbits) as [Hcnt Hrange]. lia.
Qed.

Lemma aggregation_up_to_255_witness :
  let fl := map normalize [1; 0; 1] in
  (1 <= 3 <= 255)%nat /\ length fl = 3%nat /\ Zmod.to_Z (normalize 4) <= 255
  /\ FlagAggregation 3 fl (normalize 4) = Err ConstraintUnsatisfiable.
Proof.
  assert (H1 : (1 <= 3 <= 255)%nat) by lia.
  assert (H2 : length (map normalize [1; 0; 1]) = 3%nat) by reflexivity.
  assert (H3 : Zmod.to_Z (normalize 4) <= 255) by (vm_compute; discriminate).
  split; [exact H1|]. split; [exact H2|]. split; [exact H3|].
  apply (proj2 (proj2 (proj2
           (aggregation_up_to_255 3 (map normalize [1; 0; 1]) (normalize 4) H1 H2 H3)))).
  vm_compute. reflexivity.
Defined.

(** X9: the comparator of the aggregation templates is 8 bits wide, so a
    claim whose count of set flags exceeds the minimum by 256 or more is
    rejected although it is compliant: [sum + 256 - k] no longer fits the 9
    bits of the decomposition. *)
Theorem aggregation_overflow (fl : list Fp) (k : Fp) :
  Forall is_bit fl -> Z.of_nat (length fl) < 2 ^ 200 ->
  Zmod.to_Z k + 256 <= count_ones fl ->
  FlagAggregation (length fl) fl k = Err ConstraintUnsatisfiable
  /\ ~ FlagAggregation_satisfiable (length fl) fl k.
Proof.
  intros Hbits Hlen Hsurplus.
  destruct (flag_sum_bits fl Hbits) as [Hcnt Hrange].
  pose proof (to_Z_bound k) as Hk0.
  pose proof (pow2_le_p 201 ltac:(lia)) as Hp.
  replace (Z.of_nat 201) with (Z.succ 200) in Hp by reflexivity.
  rewrite Z.pow_succ_r in Hp by lia.
  assert (Hpos200 : 0 < 2 ^ 200) by reflexivity.
  assert (Herr : FlagAggregation (length fl) fl k = Err ConstraintUnsatisfiable).
  { rewrite FlagAggregation_run, Nat.eqb_refl.
    apply forallb_boolean in Hbits. rewrite Hbits.
    destruct fl as [|f0 rest]; [cbn in Hcnt, Hsurplus; unfold count_ones in Hsurplus;
                                 cbn in Hsurplus; lia|].
    rewrite GreaterEqThan_run, LessThan_run by lia. cbv zeta.
    rewrite comparator_sum by lia.
    rewrite to_Z_small by lia.
    change (2 ^ Z.of_nat 8) with 256. change (2 ^ Z.of_nat (8 + 1)) with 512.
    rewrite Z.mod_small by lia.
    destruct (Z.ltb_spec (flag_sum (f0 :: rest) + 256 - Zmod.to_Z k) 512); [lia|].
    reflexivity. }
  split; [exact Herr|].
  rewrite FlagAggregation_satisfiable_iff, Herr. intros [s Hs]. discriminate.
Qed.

Lemma aggregation_overflow_witness :
  let fl := repeat 1%Fp 256 in
  Forall is_bit fl /\ Z.of_nat (length fl) < 2 ^ 200
  /\ Zmod.to_Z 0%Fp + 256 <= count_ones fl
  /\ FlagAggregation (length fl) fl 0%Fp = Err ConstraintUnsatisfiable.
Proof.
  assert (H1 : Forall is_bit (repeat 1%Fp 256)).
  { apply List.Forall_forall. intros x Hx. apply repeat_spec in Hx.
    right. exact Hx. }
  assert (H2 : Z.of_nat (length (repeat 1%Fp 256)) < 2 ^ 200) by reflexivity.
  assert (H3 : Zmod.to_Z 0%Fp + 256 <= count_ones (repeat 1%Fp 256))
    by (vm_compute; discriminate).
  split; [exact H1|]. split; [exact H2|]. split; [exact H3|].
  exact (proj1 (aggregation_overflow (repeat 1%Fp 256) 0%Fp H1 H2 H3)).
Defined.

(* ================================================================= *)
(** * Running sums and public signals *)

Lemma nth_running_sum rest : forall prev i,
  (i <= length rest)%nat ->
  nth i (prev :: running_sums prev rest) 0%Fp
  = (prev + Zmod.of_Z p (flag_sum (List.firstn i rest)))%Fp.
Proof.
  induction rest as [|f rest IH]; intros prev i Hi.
  - cbn [length] in Hi. assert (i = 0%nat) as -> by lia.
    cbn [running_sums nth List.firstn flag_sum fold_right].
    change (Zmod.of_Z p 0) with 0%Fp. ring.
  - destruct i as [|i].
    + cbn [nth List.firstn flag_sum fold_right]. change (Zmod.of_Z p 0) with 0%Fp. ring.
    + cbn [length] in Hi. cbn [running_sums].
      change (nth (S i) (prev :: (prev + f)%Fp :: running_sums (prev + f)%Fp rest) 0%Fp)
        with (nth i ((prev + f)%Fp :: running_sums (prev + f)%Fp rest) 0%Fp).
      rewrite IH by lia. cbn [List.firstn flag_sum fold_right].
      fold (flag_sum (List.firstn i rest)). rewrite of_Z_add, of_Z_to_Z. ring.
Qed.

Lemma flag_sum_app l1 l2 : flag_sum (l1 ++ l2) = flag_sum l1 + flag_sum l2.
Proof.
  induction l1 as [|f l1 IH]; cbn [app flag_sum fold_right]; [reflexivity|].
  fold (flag_sum (l1 ++ l2)) (flag_sum l1). lia.
Qed.

Lemma firstn_succ_snoc (l : list Fp) : forall i,
  (i < length l)%nat ->
  List.firstn (S i) l = List.firstn i l ++ [nth i l 0%Fp].
Proof.
  induction l as [|f l IH]; intros i Hi; [cbn [length] in Hi; lia|].
  destruct i as [|i]; [reflexivity|].
  cbn [length] in Hi. cbn [List.firstn nth app]. f_equal. apply IH. lia.
Qed.

Lemma Forall_firstn_bits (l : list Fp) i :
  Forall is_bit l -> Forall is_bit (List.firstn i l).
Proof.
  intros H. revert i. induction H as [|f l Hf _ IH]; intros [|i]; cbn [List.firstn];
    constructor; auto.
Qed.

(** X10: in every satisfying assignment of an aggregation circuit with at
    most 255 flags, the i-th running sum is the number of set flags among the
    first i+1; so the running sums never decrease, and grow by at most one
    per step. *)
Theorem running_sums_count (N : nat) (s : FlagAggregation_signals) :
  (N <= 255)%nat -> FlagAggregation_constraints N s = true ->
  length (sums s) = N
  /\ (forall i, (i < N)%nat ->
        Zmod.to_Z (nth i (sums s) 0%Fp) = count_ones (List.firstn (S i) (flags s)))
  /\ (forall i, (S i < N)%nat ->
        Zmod.to_Z (nth i (sums s) 0%Fp) <= Zmod.to_Z (nth (S i) (sums s) 0%Fp)
        <= Zmod.to_Z (nth i (sums s) 0%Fp) + 1).
Proof.
  intros HN Hc. pose proof Hc as Hrun. apply FlagAggregation_constraints_iff in Hrun.
  destruct (FlagAggregation_inputs _ _ _ _ Hrun)
    as (_ & _ & _ & _ & f0 & rest & Hfl & Hsums & _).
  assert (Hlen : length (flags s) = N /\ Forall is_bit (flags s)).
  { unfold FlagAggregation_constraints in Hc.
    rewrite !andb_true_iff, Nat.eqb_eq, forallb_boolean in Hc. tauto. }
  destruct Hlen as [Hlen Hbits].
  assert (Hnth : forall i, (i < N)%nat ->
             Zmod.to_Z (nth i (sums s) 0%Fp) = count_ones (List.firstn (S i) (flags s))).
  { intros i Hi. rewrite Hsums, Hfl. rewrite Hfl in Hlen, Hbits. cbn [length] in Hlen.
    rewrite nth_running_sum by lia.
    pose proof (Forall_firstn_bits (f0 :: rest) (S i) Hbits) as Hpre.
    destruct (flag_sum_bits _ Hpre) as [Hcnt Hrange].
    rewrite <- Hcnt. cbn [List.firstn flag_sum fold_right] in *.
    fold (flag_sum (List.firstn i rest)) in *.
    rewrite <- (of_Z_to_Z f0) at 1. rewrite <- of_Z_add.
    apply to_Z_small.
    assert (length (List.firstn i rest) <= i)%nat by apply List.firstn_le_length.
    cbn [length] in Hrange.
    pose proof (pow2_le_p 9 ltac:(lia)) as Hp. change (2 ^ Z.of_nat 9) with 512 in Hp.
    lia. }
  split.
  { rewrite Hsums. rewrite Hfl in Hlen. cbn [length] in *.
    clear -Hlen. revert f0 N Hlen. induction rest as [|f rest IH]; intros f0 N Hlen.
    - exact Hlen.
    - cbn [running_sums length] in *. destruct N as [|N]; [lia|].
      f_equal. apply (IH (f0 + f)%Fp N). lia. }
  split; [exact Hnth|].
  intros i Hi. rewrite !Hnth by lia.
  rewrite (firstn_succ_snoc (flags s) (S i)) by lia.
  pose proof (Forall_firstn_bits (flags s) (S i) Hbits) as Hpre.
  assert (Hlast : is_bit (nth (S i) (flags s) 0%Fp)).
  { rewrite List.Forall_forall in Hbits. apply Hbits. apply nth_In. lia. }
  assert (Hall : Forall is_bit (List.firstn (S i) (flags s) ++ [nth (S i) (flags s) 0%Fp])).
  { apply List.Forall_app. split; [exact Hpre|]. constructor; [exact Hlast | constructor]. }
  destruct (flag_sum_bits _ Hpre) as [<- _].
  destruct (flag_sum_bits _ Hall) as [<- _].
  rewrite flag_sum_app. cbn [flag_sum fold_right].
  destruct Hlast as [-> | ->]; rewrite ?to_Z_0, ?to_Z_1; lia.
Qed.

Lemma running_sums_count_witness :
  exists s,
    (5 <= 255)%nat /\ FlagAggregation_constraints 5 s = true
    /\ map Zmod.to_Z (sums s) = [1; 1; 2; 2; 3].
Proof.
  destruct (FlagAggregation 5 (map normalize [1; 0; 1; 0; 1]) (normalize 3))
    as [s|e] eqn:E.
  - exists s.
    assert (H1 : (5 <= 255)%nat) by lia.
    assert (H2 : FlagAggregation_constraints 5 s = true).
    { apply FlagAggregation_constraints_iff.
      destruct (FlagAggregation_inputs _ _ _ _ E) as (-> & -> & _). exact E. }
    split; [exact H1|]. split; [exact H2|].
    destruct (running_sums_count 5 s H1 H2) as (Hlen & Hnth & _).
    destruct (FlagAggregation_inputs _ _ _ _ E) as (Hf & _).
    destruct (sums s) as [|a [|b [|c [|d [|e [|]]]]]]; try discriminate Hlen.
    pose proof (Hnth 0%nat ltac:(lia)) as H0'. pose proof (Hnth 1%nat ltac:(lia)) as H1'.
    pose proof (Hnth 2%nat ltac:(lia)) as H2'. pose proof (Hnth 3%nat ltac:(lia)) as H3'.
    pose proof (Hnth 4%nat ltac:(lia)) as H4'.
    rewrite Hf in H0', H1', H2', H3', H4'. cbn [nth] in H0', H1', H2', H3', H4'.
    cbn [map]. rewrite H0', H1', H2', H3', H4'. reflexivity.
  - exfalso. revert E. vm_compute. discriminate.
Defined.

Lemma signal_string_1 : signal_string 1%Fp = "1".
Proof. reflexivity. Qed.

(** X11: whatever the private input, the public signals of a successfully
    calculated witness are the string "1" followed by the declared public
    input reduced modulo [p], and nothing else. *)
Theorem publicSignals_shape (c : circuit) (i : input) (w : witness) :
  calculate_witness c i = Ok w ->
  witness_circuit w = c
  /\ publicSignals w = ["1"; signal_string (normalize (public_input i))].
Proof.
  destruct c, i as [v T | fl k | fl k]; cbn [calculate_witness public_input];
    try discriminate.
  - destruct (ComputeThreshold (normalize v) (normalize T)) as [s|] eqn:E;
      cbn [mbind result_bind]; [|discriminate].
    intros [= <-]. destruct (ComputeThreshold_inputs _ _ _ E) as (_ & HT & Hv).
    split; [reflexivity|]. cbn [publicSignals map]. rewrite Hv, HT. reflexivity.
  - unfold EvaluationAttestation.
    destruct (FlagAggregation 5 (map normalize fl) (normalize k)) as [s|] eqn:E;
      cbn [mbind result_bind]; [|discriminate].
    intros [= <-]. destruct (FlagAggregation_inputs _ _ _ _ E) as (_ & Hk & Hv & _).
    split; [reflexivity|]. cbn [publicSignals map]. rewrite Hv, Hk. reflexivity.
  - unfold PolicyCompliance.
    destruct (FlagAggregation 8 (map normalize fl) (normalize k)) as [s|] eqn:E;
      cbn [mbind result_bind]; [|discriminate].
    intros [= <-]. destruct (FlagAggregation_inputs _ _ _ _ E) as (_ & Hk & Hv & _).
    split; [reflexivity|]. cbn [publicSignals map]. rewrite Hv, Hk. reflexivity.
Qed.

Lemma publicSignals_shape_witness :
  exists w,
    calculate_witness evaluation_attestation (EvaluationInput [1; 1; 0; 1; 1] 3) = Ok w
    /\ publicSignals w = ["1"; "3"].
Proof.
  destruct (calculate_witness evaluation_attestation (EvaluationInput [1; 1; 0; 1; 1] 3))
    as [w|e] eqn:E.
  - exists w. split; [reflexivity|].
    exact (proj2 (publicSignals_shape _ _ w E)).
  - exfalso. revert E. vm_compute. discriminate.
Defined.

(* ================================================================= *)
(** * Persisted artifacts *)

(* ================================================================= *)
(** * Further properties of the scripts *)

Lemma artifact_paths_differ (root : string) (c c' : circuit) (suffix suffix' : string) :
  c <> c' ->
  In suffix ["_proof.json"; "_public.json"] ->
  In suffix' ["_proof.json"; "_public.json"] ->
  path_join (path_join root "data") (circuitName c +:+ suffix)
  <> path_join (path_join root "data") (circuitName c' +:+ suffix').
Proof.
  unfold path_join. intros Hc Hs Hs' E.
  apply append_cancel_l, append_cancel_l in E.
  cbn [In] in Hs, Hs'.
  destruct Hs as [<- | [<- | []]]; destruct Hs' as [<- | [<- | []]];
    destruct c, c'; try discriminate E; apply Hc; reflexivity.
Qed.

Section frame.
Context `{HH : Host}.

Lemma generateProof_other_files (c : circuit) (i : input) (σ : fs) (path : string) :
  path <> path_join (path_join projectRoot "data") (circuitName c +:+ "_proof.json") ->
  path <> path_join (path_join projectRoot "data") (circuitName c +:+ "_public.json") ->
  files (fst (generate_proof.generateProof c i σ)) !! path = files σ !! path.
Proof.
  intros Hp1 Hp2. unfold generate_proof.generateProof.
  destruct (fullProve c i) as [[π pub]|e]; [|reflexivity].
  cbv zeta. cbn [fst writeFileSync files].
  rewrite !lookup_insert_ne by (apply not_eq_sym; assumption).
  destruct (existsSync _ σ); reflexivity.
Qed.

Lemma generateProof_other_circuit (c c' : circuit) (i : input) (σ : fs) (suffix : string) :
  c' <> c -> In suffix ["_proof.json"; "_public.json"] ->
  files (fst (generate_proof.generateProof c i σ))
    !! path_join (path_join projectRoot "data") (circuitName c' +:+ suffix)
  = files σ !! path_join (path_join projectRoot "data") (circuitName c' +:+ suffix).
Proof.
  intros Hc Hs.
  apply generateProof_other_files; apply artifact_paths_differ; cbn [In]; auto.
Qed.

Lemma persist_same (c : circuit) (i : input) (σ : fs) :
  demo.fullProveAndPersist c i σ = generate_proof.generateProof c i σ.
Proof.
  unfold generate_proof.generateProof, demo.fullProveAndPersist, demo.ensureDataDir.
  destruct (fullProve c i) as [[π pub]|e]; reflexivity.
Qed.


End frame.

(** X12: whether it succeeds or fails, [generateProof] (and
    [fullProveAndPersist], which behaves the same) touches at most the two
    artifact files of its own circuit and the [data] directory: every other
    file, in particular the artifacts of the other circuits, reads as before,
    and no directory disappears. *)
Theorem generateProof_frame `{HH : Host} (c : circuit) (i : input) (σ : fs) :
  let σ' := fst (generate_proof.generateProof c i σ) in
  let artifact (c0 : circuit) (suffix : string) :=
    path_join (path_join projectRoot "data") (circuitName c0 +:+ suffix) in
  demo.fullProveAndPersist c i σ = generate_proof.generateProof c i σ
  /\ (forall path, path <> artifact c "_proof.json" -> path <> artifact c "_public.json" ->
        files σ' !! path = files σ !! path)
  /\ (forall c', c' <> c ->
        files σ' !! artifact c' "_proof.json" = files σ !! artifact c' "_proof.json"
        /\ files σ' !! artifact c' "_public.json" = files σ !! artifact c' "_public.json")
  /\ (forall d, d ∈ dirs σ -> d ∈ dirs σ')
  /\ (forall d, d ∈ dirs σ' -> d ∈ dirs σ \/ d = path_join projectRoot "data").
Proof.
  cbv zeta.
  split; [apply persist_same|].
  split; [intros path; apply generateProof_other_files|].
  split.
  { intros c' Hc'. split; apply generateProof_other_circuit; cbn [In]; auto. }
  unfold generate_proof.generateProof.
  destruct (fullProve c i) as [[π pub]|e]; cbv zeta; cbn [fst writeFileSync dirs];
    [|split; intros d Hd; auto].
  destruct (existsSync _ σ); cbn [mkdirSync dirs].
  - split; intros d Hd; auto.
  - split; intros d Hd.
    + apply elem_of_union. right. exact Hd.
    + apply elem_of_union in Hd as [Hd|Hd]; [|left; exact Hd].
      apply elem_of_singleton in Hd. right. exact Hd.
Qed.

(* ----------------------------------------------------------------- *)
(** ** Reading artifacts back *)

Lemma read_write_string (e k : string) :
  read_strings (write_string e k)
  = match read_strings k with
    | Some l => Some (e :: l)
    | None => None
    end.
Proof.
  induction e as [|ch e IH]; cbn [write_string].
  - reflexivity.
  - change (read_strings (String "x" (String ch (write_string e k))))
      with (match read_strings (write_string e k) with
            | Some (e0 :: l) => Some (String ch e0 :: l)
            | _ => None
            end).
    rewrite IH. destruct (read_strings k); reflexivity.
Qed.

Lemma read_write_strings (l : list string) : read_strings (write_strings l) = Some l.
Proof.
  induction l as [|e l IH]; cbn [write_strings fold_right]; [reflexivity|].
  fold (write_strings l). rewrite read_write_string, IH. reflexivity.
Qed.

Lemma echo_roundtrip : @ArtifactRoundTrip echo_engine echo_host echo_parser.
Proof.
  split.
  - intros π. cbn [JSON_parse JSON_stringify echo_parser echo_host echo_stringify echo_parse].
    rewrite read_write_strings. reflexivity.
  - intros l. cbn [JSON_parse JSON_stringify echo_parser echo_host echo_stringify].
    rewrite as_strings_map. cbn [echo_parse]. rewrite read_write_strings. reflexivity.
Qed.

Lemma echo_engine_complete : Groth16Complete echo_engine.
Proof.
  intros w _. cbn [groth16_verify groth16_prove verification_key echo_engine].
  apply bool_decide_eq_true_2. reflexivity.
Qed.

Section read_back.
Context `{RT : ArtifactRoundTrip}.

Lemma verifyProof_after_generate (c : circuit) (i : input) (σ : fs) π pub :
  fullProve c i = Ok (π, pub) ->
  verify_proof.verifyProof c (fst (generate_proof.generateProof c i σ))
  = Some (groth16_verify (verification_key c) pub π).
Proof.
  intros Hok. unfold generate_proof.generateProof. rewrite Hok. cbv zeta. cbn [fst].
  unfold verify_proof.verifyProof, readFileSync. cbv zeta. cbn [writeFileSync files].
  pose proof (proof_public_paths_differ projectRoot c) as Hne.
  set (pp := path_join (path_join projectRoot "data") (circuitName c +:+ "_proof.json")) in *.
  set (qq := path_join (path_join projectRoot "data") (circuitName c +:+ "_public.json")) in *.
  rewrite (lookup_insert_ne _ qq pp) by (apply not_eq_sym, Hne).
  rewrite !lookup_insert_eq. cbn [mbind option_bind].
  rewrite parse_proof, parse_signals. cbn [mbind option_bind as_signals as_proof].
  rewrite as_strings_map. reflexivity.
Qed.

End read_back.

(** X13: the generate-then-verify pipeline.  After [generateProof] has
    succeeded, [verifyProof] on the file system it left reads both files
    back and verifies exactly the returned pair under the circuit's key; on
    a compliant input and with a complete engine the answer is true.  This
    assumes that parsing returns what was stringified. *)
Theorem persisted_proof_verifies `{RT : ArtifactRoundTrip}
  {GC : Groth16Complete _} (c : circuit) (i : input) (σ : fs) :
  (forall π pub, fullProve c i = Ok (π, pub) ->
     verify_proof.verifyProof c (fst (generate_proof.generateProof c i σ))
     = Some (groth16_verify (verification_key c) pub π))
  /\ (compliant c i ->
      verify_proof.verifyProof c (fst (generate_proof.generateProof c i σ)) = Some true).
Proof.
  split; [intros π pub; apply verifyProof_after_generate|].
  intros Hc. destruct (calculate_witness_compliant c i Hc) as (w & Hw & Hwc & Hsat).
  assert (Hok : fullProve c i = Ok (groth16_prove w, publicSignals w)).
  { unfold fullProve. rewrite Hw. reflexivity. }
  rewrite (verifyProof_after_generate c i σ _ _ Hok).
  f_equal. rewrite <- Hwc. apply groth16_complete, Hsat.
Qed.

Lemma persisted_proof_verifies_witness :
  compliant policy_compliance (PolicyInput [1; 1; 1; 1; 0; 1; 1; 1] 7)
  /\ @verify_proof.verifyProof echo_engine echo_host echo_parser policy_compliance
       (fst (@generate_proof.generateProof echo_engine echo_host policy_compliance
               (PolicyInput [1; 1; 1; 1; 0; 1; 1; 1] 7) empty_fs))
     = Some true.
Proof.
  assert (H : compliant policy_compliance (PolicyInput [1; 1; 1; 1; 0; 1; 1; 1] 7)).
  { cbn [compliant]. split; [split; [reflexivity|]|].
    - repeat constructor; lia.
    - cbn. lia. }
  split; [exact H|].
  exact (proj2 (@persisted_proof_verifies echo_engine echo_host echo_parser
                  echo_roundtrip echo_engine_complete _ _ empty_fs) H).
Defined.

(* ================================================================= *)
(** * The regulator and the composite *)

(** X14: the regulator's [main] never aborts: it records one result per
    circuit, in order; a circuit's result is true only when [verifyProof]
    returned true, and an exception (for instance a missing artifact file)
    counts as false; the summary is positive exactly when all three
    verifications returned true. *)
Theorem verify_main_total `{JP : JSONParse} (σ : fs) :
  let caught (c : circuit) :=
    match verify_proof.verifyProof c σ with
    | Some isValid => isValid
    | None => false
    end in
  let artifact (c : circuit) (suffix : string) :=
    path_join (path_join projectRoot "data") (circuitName c +:+ suffix) in
  verify_proof.main σ
  = [("compute_threshold", caught compute_threshold);
     ("evaluation_attestation", caught evaluation_attestation);
     ("policy_compliance", caught policy_compliance)]
  /\ (verify_proof.interpretResults (verify_proof.main σ) = true
      <-> forall c, verify_proof.verifyProof c σ = Some true)
  /\ (forall c,
        files σ !! artifact c "_proof.json" = None
        \/ files σ !! artifact c "_public.json" = None ->
        verify_proof.verifyProof c σ = None
        /\ assoc (circuitName c) (verify_proof.main σ) = Some false
        /\ verify_proof.interpretResults (verify_proof.main σ) = false).
Proof.
  cbv zeta.
  assert (Hmain : verify_proof.main σ
                  = [("compute_threshold",
                      match verify_proof.verifyProof compute_threshold σ with
                      | Some b => b | None => false end);
                     ("evaluation_attestation",
                      match verify_proof.verifyProof evaluation_attestation σ with
                      | Some b => b | None => false end);
                     ("policy_compliance",
                      match verify_proof.verifyProof policy_compliance σ with
                      | Some b => b | None => false end)]) by reflexivity.
  assert (Hall : verify_proof.interpretResults (verify_proof.main σ) = true
                 <-> forall c, verify_proof.verifyProof c σ = Some true).
  { rewrite Hmain. unfold verify_proof.interpretResults, Object_values.
    cbn [map snd forallb]. split.
    - intros Hv c.
      destruct (verify_proof.verifyProof compute_threshold σ) as [[|]|] eqn:E1;
        destruct (verify_proof.verifyProof evaluation_attestation σ) as [[|]|] eqn:E2;
        destruct (verify_proof.verifyProof policy_compliance σ) as [[|]|] eqn:E3;
        try discriminate Hv.
      destruct c; assumption.
    - intros Hv. rewrite !Hv. reflexivity. }
  split; [exact Hmain|]. split; [exact Hall|].
  intros c Hmissing.
  assert (Hnone : verify_proof.verifyProof c σ = None).
  { unfold verify_proof.verifyProof, readFileSync. cbv zeta.
    destruct Hmissing as [Hpr | Hpub].
    - rewrite Hpr. reflexivity.
    - rewrite Hpub. clear Hpub.
      destruct (files σ !! _) as [proofText|]; [|reflexivity]. cbn [mbind option_bind].
      destruct (JSON_parse proofText); reflexivity. }
  split; [exact Hnone|]. split.
  - rewrite Hmain. destruct c; cbn [assoc circuitName String.eqb Ascii.eqb Bool.eqb];
      rewrite Hnone; reflexivity.
  - destruct (verify_proof.interpretResults (verify_proof.main σ)) eqn:E; [|reflexivity].
    assert (Hc : verify_proof.verifyProof c σ = Some true) by (apply Hall; reflexivity).
    rewrite Hc in Hnone. discriminate.
Qed.

(* ----------------------------------------------------------------- *)
(** ** Composite verification on arbitrary objects *)

(** X15: [verifyCompositeProof] gives a verdict only for a composite that
    holds an entry for each of the three circuits.  If the [proofs] field or
    one of the three entries is missing, the round for that circuit throws,
    whatever the verifier does, and there is no verdict.  The script itself
    checks nothing about an entry that is present: the values it stores under
    [publicSignals] and [proof], of any shape or [undefined], go to the
    verifier as they are, and the round's outcome is the verifier's. *)
Theorem composite_verdict_needs_all_members `{SV : StoredVerifier} (c : json proof) :
  (forall b, composite_proof.compositeVerdict c = Ok b ->
     forall circ, exists proofData v,
       member_entry c circ = Ok (Some proofData)
       /\ composite_proof.verifyMember c circ = Ok v)
  /\ (forall circ,
        (forall proofData, member_entry c circ <> Ok (Some proofData)) ->
        composite_proof.verifyMember c circ = Err MalformedArtifact
        /\ is_ok (composite_proof.compositeVerdict c) = false)
  /\ (forall e, composite_proof.compositeVerdict c = Err e ->
        exists circ, composite_proof.verifyMember c circ = Err e)
  /\ (forall circ proofData,
        member_entry c circ = Ok (Some proofData) ->
        exists publicSignals π,
          property "publicSignals" (Some proofData) = Ok publicSignals
          /\ property "proof" (Some proofData) = Ok π
          /\ composite_proof.verifyMember c circ
             = groth16_verify_stored (verification_key circ) publicSignals π).
Proof.
  assert (Hmiss : forall circ,
             (forall proofData, member_entry c circ <> Ok (Some proofData)) ->
             composite_proof.verifyMember c circ = Err MalformedArtifact).
  { intros circ. apply verifyMember_missing. }
  assert (Hnone : forall circ e,
             composite_proof.verifyMember c circ = Err e ->
             is_ok (composite_proof.compositeVerdict c) = false).
  { intros circ e Herr. rewrite compositeVerdict_cases.
    destruct (composite_proof.verifyMember c compute_threshold) as [v1|] eqn:E1;
      [|reflexivity].
    destruct (composite_proof.verifyMember c evaluation_attestation) as [v2|] eqn:E2;
      [|reflexivity].
    destruct (composite_proof.verifyMember c policy_compliance) as [v3|] eqn:E3;
      [|reflexivity].
    destruct circ; congruence. }
  split.
  { intros b Hb circ.
    destruct (composite_proof.verifyMember c circ) as [v|e] eqn:Ev.
    - destruct (member_entry c circ) as [[proofData|]|e] eqn:E.
      + exists proofData, v. split; reflexivity.
      + rewrite Hmiss in Ev; [discriminate|]. intros pd. rewrite E. discriminate.
      + rewrite Hmiss in Ev; [discriminate|]. intros pd. rewrite E. discriminate.
    - apply Hnone in Ev. rewrite Hb in Ev. discriminate. }
  split.
  { intros circ Hm. split; [apply Hmiss, Hm|].
    eapply Hnone, Hmiss, Hm. }
  split.
  { intros e. rewrite compositeVerdict_cases.
    destruct (composite_proof.verifyMember c compute_threshold) as [v1|e1] eqn:E1;
      [|intros [= <-]; exists compute_threshold; exact E1].
    destruct (composite_proof.verifyMember c evaluation_attestation) as [v2|e2] eqn:E2;
      [|intros [= <-]; exists evaluation_attestation; exact E2].
    destruct (composite_proof.verifyMember c policy_compliance) as [v3|e3] eqn:E3;
      [discriminate|intros [= <-]; exists policy_compliance; exact E3]. }
  intros circ proofData. apply verifyMember_present.
Qed.

(** X16: only the three fixed circuits are checked.  Adding a claim under
    any other key to a composite's [proofs] object, whatever its content,
    leaves the verdict unchanged: the extra claim is never verified. *)
Theorem extra_claim_is_ignored `{SV : StoredVerifier} (k : string) (j c : json proof) :
  ~ In k (map circuitName composite_proof.circuits) ->
  composite_proof.verifyCompositeProof (add_claim k j c)
  = composite_proof.verifyCompositeProof c
  /\ composite_proof.compositeVerdict (add_claim k j c)
     = composite_proof.compositeVerdict c.
Proof.
  intros Hk. apply compositeVerdict_same_entries.
  intros circ. apply member_entry_add_claim. intros E. apply Hk.
  rewrite <- E. unfold composite_proof.circuits. cbn [map In].
  destruct circ; auto.
Qed.

Lemma extra_claim_is_ignored_witness :
  ~ In "extra_claim" (map circuitName composite_proof.circuits)
  /\ @composite_proof.compositeVerdict echo_engine (strict_verifier echo_engine)
       (add_claim "extra_claim" forged_member three_member_composite)
     = @composite_proof.compositeVerdict echo_engine (strict_verifier echo_engine)
         three_member_composite
  /\ @composite_proof.compositeVerdict echo_engine (strict_verifier echo_engine)
       three_member_composite = Ok true
  /\ @composite_proof.verifyCompositeProof echo_engine (strict_verifier echo_engine)
       three_member_composite
     = Ok [("compute_threshold", true); ("evaluation_attestation", true);
           ("policy_compliance", true)].
Proof.
  assert (H : ~ In "extra_claim" (map circuitName composite_proof.circuits)).
  { cbn. intros [E | [E | [E | []]]]; discriminate E. }
  split; [exact H|].
  split; [exact (proj2 (@extra_claim_is_ignored echo_engine (strict_verifier echo_engine)
                          "extra_claim" forged_member three_member_composite H))|].
  split; vm_compute; reflexivity.
Defined.



(* ----------------------------------------------------------------- *)
(** ** The scripts' entry points, one after the other *)




Section pipeline.
Context `{RT : ArtifactRoundTrip} {GC : Groth16Complete _}.





End pipeline.





